(** * summarizer.py: outline tree, page ranges, fragment routing and export

    A shallow embedding of the structural core of [main] in
    [src/summarizer.py]: the classification of table-of-contents entries,
    the construction of the Part / Chapter / Section records, the
    computation of every record's ["end"] page, the routing of one page's
    knowledge points to a record, the copy into the knowledge base and the
    order and numbering of the generated markdown files.

    Python values are modelled as follows.
    - [int] is [Z]; a page index is a [Z] (it may be negative when the
      outline gives page 0).
    - [str] is [string]; titles are read as ASCII text, so [\s] and [\d]
      are the ASCII members of the classes.
    - [None] in an ["end"] field is [None : option Z].
    - a [dict] keyed by title is an association list in insertion order
      with the update rule of Python dictionaries (see [Dict]).
    - an exception ([KeyError], or [TypeError] when an integer is compared
      with [None]) is the [None] of the [option] monad. *)

From Stdlib Require Import ZArith List Bool String Ascii DecimalString Lia
  Permutation.
From Stdlib Require DecimalNat.
Import ListNotations.
Open Scope string_scope.
Open Scope list_scope.
Open Scope Z_scope.

Set Implicit Arguments.

(** ** The error monad *)

Definition bind {A B : Type} (m : option A) (f : A -> option B) : option B :=
  match m with
  | Some a => f a
  | None => None
  end.

Notation "x <- m ;; k" := (bind m (fun x => k))
  (at level 61, m at next level, right associativity).
Notation "' pat <- m ;; k" := (bind m (fun x => match x with pat => k end))
  (at level 61, pat pattern, m at next level, right associativity).

(** ** Regular expressions

    [PART_PATTERN] and [CHAPTER_PATTERN] are both used through
    [pattern.search(title)] and both start with [^]; without [re.MULTILINE]
    the search therefore succeeds exactly when some prefix of the title
    matches the rest of the pattern.  Prefixes are matched with Brzozowski
    derivatives. *)

Module Re.

Inductive regex : Type :=
| Void : regex
| Eps : regex
| Chr : (ascii -> bool) -> regex
| Seq : regex -> regex -> regex
| Alt : regex -> regex -> regex
| Star : regex -> regex.

Definition Plus (r : regex) : regex := Seq r (Star r).

Fixpoint nullable (r : regex) : bool :=
  match r with
  | Void => false
  | Eps => true
  | Chr _ => false
  | Seq a b => nullable a && nullable b
  | Alt a b => nullable a || nullable b
  | Star _ => true
  end.

Fixpoint deriv (c : ascii) (r : regex) : regex :=
  match r with
  | Void => Void
  | Eps => Void
  | Chr p => if p c then Eps else Void
  | Seq a b =>
      if nullable a
      then Alt (Seq (deriv c a) b) (deriv c b)
      else Seq (deriv c a) b
  | Alt a b => Alt (deriv c a) (deriv c b)
  | Star a => Seq (deriv c a) (Star a)
  end.

(** [search_anchored r s]: some prefix of [s] is in the language of [r]. *)
Fixpoint search_anchored (r : regex) (s : string) : bool :=
  nullable r ||
  match s with
  | EmptyString => false
  | String c s' => search_anchored (deriv c r) s'
  end.

(** [\s] on ASCII text: tab, line feed, vertical tab, form feed, carriage
    return, the four separators 0x1c-0x1f and the space. *)
Definition isspace (c : ascii) : bool :=
  let n := nat_of_ascii c in
  ((9 <=? n) && (n <=? 13) || (28 <=? n) && (n <=? 32))%nat.

(** [\d] on ASCII text. *)
Definition isdigit (c : ascii) : bool :=
  let n := nat_of_ascii c in
  ((48 <=? n) && (n <=? 57))%nat.

Definition lower (c : ascii) : ascii :=
  let n := nat_of_ascii c in
  if ((65 <=? n) && (n <=? 90))%nat then ascii_of_nat (n + 32) else c.

(** A literal letter under [re.IGNORECASE]. *)
Definition chr_ci (l : ascii) : regex :=
  Chr (fun c => Ascii.eqb (lower c) (lower l)).

Fixpoint lit_ci (s : string) : regex :=
  match s with
  | EmptyString => Eps
  | String c s' => Seq (chr_ci c) (lit_ci s')
  end.

End Re.

(** [re.compile(r"^\s*Part\s+", re.IGNORECASE)] *)
Definition PART_PATTERN : Re.regex :=
  Re.Seq (Re.Star (Re.Chr Re.isspace))
         (Re.Seq (Re.lit_ci "Part") (Re.Plus (Re.Chr Re.isspace))).

(** [re.compile(r"^\s*Chapter\s+\d+", re.IGNORECASE)] *)
Definition CHAPTER_PATTERN : Re.regex :=
  Re.Seq (Re.Star (Re.Chr Re.isspace))
         (Re.Seq (Re.lit_ci "Chapter")
                 (Re.Seq (Re.Plus (Re.Chr Re.isspace))
                         (Re.Plus (Re.Chr Re.isdigit)))).

(** [l[-1]] when [l] is not empty. *)
Fixpoint last_opt {A : Type} (l : list A) : option A :=
  match l with
  | [] => None
  | [x] => Some x
  | _ :: l' => last_opt l'
  end.

(** ** Dictionaries

    A Python [dict] keeps its keys in insertion order; [d[k] = v] on a key
    that is present replaces the value and leaves the key where it was. *)

Module Dict.
Section Dict.
Variable V : Type.

Definition t : Type := list (string * V).

Definition keys (d : t) : list string := map fst d.

Definition values (d : t) : list V := map snd d.

Fixpoint get (k : string) (d : t) : option V :=
  match d with
  | [] => None
  | (k', v) :: d' => if String.eqb k k' then Some v else get k d'
  end.

Fixpoint set (k : string) (v : V) (d : t) : t :=
  match d with
  | [] => [(k, v)]
  | (k', v') :: d' =>
      if String.eqb k k' then (k', v) :: d' else (k', v') :: set k v d'
  end.

(** [d[k].field = ...] or [d[k]["field"].append(...)]: the object stored
    under [k] is changed in place. *)
Fixpoint alter (f : V -> V) (k : string) (d : t) : t :=
  match d with
  | [] => []
  | (k', v) :: d' =>
      if String.eqb k k' then (k', f v) :: d' else (k', v) :: alter f k d'
  end.
End Dict.
End Dict.

(** ** The records of the tree *)

Record section : Type := mk_section {
  s_title : string;
  s_level : Z;
  s_start : Z;
  s_end : option Z;
  s_knowledge : list string
}.

Record chapter : Type := mk_chapter {
  c_start : Z;
  c_end : option Z;
  chapter_knowledge : list string;
  sections : list section
}.

Record part : Type := mk_part {
  p_title : string;
  p_start : Z;
  p_end : option Z;
  part_knowledge : list string;
  chapters : Dict.t chapter;
  other_sections : list section
}.

(** One row of [doc.get_toc()]: [[level, title, page]]. *)
Definition toc_entry : Type := (Z * string * Z)%type.

(** ** Building the tree (the loop over [enumerate(toc)]) *)

Definition new_part (title : string) (start_idx : Z) : part :=
  {| p_title := title; p_start := start_idx; p_end := None;
     part_knowledge := []; chapters := []; other_sections := [] |}.

Definition new_chapter (start_idx : Z) : chapter :=
  {| c_start := start_idx; c_end := None;
     chapter_knowledge := []; sections := [] |}.

Definition new_section (title : string) (level start_idx : Z) : section :=
  {| s_title := title; s_level := level; s_start := start_idx;
     s_end := None; s_knowledge := [] |}.

Definition is_part_entry (level : Z) (title : string) : bool :=
  (level =? 1) && Re.search_anchored PART_PATTERN title.

Definition is_chapter_entry (level : Z) (title : string) : bool :=
  (level =? 2) && Re.search_anchored CHAPTER_PATTERN title.

Definition set_chapters (p : part) (cs : Dict.t chapter) : part :=
  {| p_title := p_title p; p_start := p_start p; p_end := p_end p;
     part_knowledge := part_knowledge p; chapters := cs;
     other_sections := other_sections p |}.

Definition set_other_sections (p : part) (os : list section) : part :=
  {| p_title := p_title p; p_start := p_start p; p_end := p_end p;
     part_knowledge := part_knowledge p; chapters := chapters p;
     other_sections := os |}.

Definition set_part_knowledge (p : part) (k : list string) : part :=
  {| p_title := p_title p; p_start := p_start p; p_end := p_end p;
     part_knowledge := k; chapters := chapters p;
     other_sections := other_sections p |}.

Definition set_sections (c : chapter) (ss : list section) : chapter :=
  {| c_start := c_start c; c_end := c_end c;
     chapter_knowledge := chapter_knowledge c; sections := ss |}.

Definition set_chapter_knowledge (c : chapter) (k : list string) : chapter :=
  {| c_start := c_start c; c_end := c_end c;
     chapter_knowledge := k; sections := sections c |}.

Definition set_s_knowledge (s : section) (k : list string) : section :=
  {| s_title := s_title s; s_level := s_level s; s_start := s_start s;
     s_end := s_end s; s_knowledge := k |}.

Definition set_s_end (s : section) (e : Z) : section :=
  {| s_title := s_title s; s_level := s_level s; s_start := s_start s;
     s_end := Some e; s_knowledge := s_knowledge s |}.

(** The state of the loop: the list [parts] and [current_part]. *)
Definition build_state : Type := (list part * option part)%type.

Definition build_step (st : build_state) (e : toc_entry) : build_state :=
  let '(parts, current_part) := st in
  let '(level, title, page_num) := e in
  let start_idx := page_num - 1 in
  if is_part_entry level title then
    (match current_part with
     | Some cp => parts ++ [cp]
     | None => parts
     end,
     Some (new_part title start_idx))
  else
    match current_part with
    | Some cp =>
        if is_chapter_entry level title then
          (parts,
           Some (set_chapters cp
                   (Dict.set title (new_chapter start_idx) (chapters cp))))
        else
          match last_opt (Dict.keys (chapters cp)) with
          | Some last_chapter_title =>
              (parts,
               Some (set_chapters cp
                       (Dict.alter
                          (fun c =>
                             set_sections c
                               (sections c
                                  ++ [new_section title level start_idx]))
                          last_chapter_title (chapters cp))))
          | None =>
              (parts,
               Some (set_other_sections cp
                       (other_sections cp
                          ++ [new_section title level start_idx])))
          end
    | None => st
    end.

(** [toc = doc.get_toc()], replaced by the fallback when it is empty. *)
Definition toc_or_fallback (toc : list toc_entry) : list toc_entry :=
  match toc with
  | [] => [(1, "Part I (Entire PDF)", 1)]
  | _ => toc
  end.

Definition build_loop (toc : list toc_entry) : build_state :=
  fold_left build_step toc ([], None).

Definition close_parts (st : build_state) : list part :=
  match snd st with
  | Some cp => fst st ++ [cp]
  | None => fst st
  end.

Definition build (toc : list toc_entry) : list part :=
  close_parts (build_loop (toc_or_fallback toc)).


(** ** Resolving the ["end"] of every record

    The three nested loops that follow the construction.  Each loop reads
    the ["start"] of the next sibling and writes the ["end"] of the current
    one; a write never changes a ["start"], so reading from the list as it
    was when the loop began gives the same value. *)

(** [for s_idx in range(len(sub_secs))], with [parent_end] the ["end"] of
    the chapter (or of the part for [other_sections]). *)
Fixpoint resolve_sections (secs : list section) (parent_end : Z)
  : list section :=
  match secs with
  | [] => []
  | s :: rest =>
      let e := match rest with
               | nxt :: _ => s_start nxt - 1
               | [] => parent_end
               end in
      set_s_end s e :: resolve_sections rest parent_end
  end.

Definition resolve_chapter (c : chapter) (e : Z) : chapter :=
  {| c_start := c_start c; c_end := Some e;
     chapter_knowledge := chapter_knowledge c;
     sections := resolve_sections (sections c) e |}.

(** [for c_idx, c_title in enumerate(chap_titles)]: [titles] is the rest of
    [chap_titles] from [c_idx] on, [d] is [part_chapters]; both lookups are
    by title. *)
Fixpoint resolve_chapters_loop (titles : list string) (d : Dict.t chapter)
    (part_end : Z) : option (Dict.t chapter) :=
  match titles with
  | [] => Some d
  | c_title :: rest =>
      e <- match rest with
           | nxt :: _ => c <- Dict.get nxt d ;; Some (c_start c - 1)
           | [] => Some part_end
           end ;;
      _ <- Dict.get c_title d ;;
      resolve_chapters_loop rest
        (Dict.alter (fun c => resolve_chapter c e) c_title d) part_end
  end.

Definition resolve_chapters (d : Dict.t chapter) (part_end : Z)
  : option (Dict.t chapter) :=
  resolve_chapters_loop (Dict.keys d) d part_end.

Definition resolve_part (p : part) (e : Z) : option part :=
  cs <- resolve_chapters (chapters p) e ;;
  Some {| p_title := p_title p; p_start := p_start p; p_end := Some e;
          part_knowledge := part_knowledge p; chapters := cs;
          other_sections := resolve_sections (other_sections p) e |}.

(** [for idx in range(len(parts))] *)
Fixpoint resolve (parts : list part) (total_pages : Z)
  : option (list part) :=
  match parts with
  | [] => Some []
  | p :: rest =>
      let e := match rest with
               | nxt :: _ => p_start nxt - 1
               | [] => total_pages - 1
               end in
      p' <- resolve_part p e ;;
      rest' <- resolve rest total_pages ;;
      Some (p' :: rest')
  end.

(** Everything up to the page loop: the ranged tree of a document. *)
Definition outline_tree (toc : list toc_entry) (total_pages : Z)
  : option (list part) :=
  resolve (build toc) total_pages.

(** ** Routing one page (the body of the page loop after [process_page]) *)

(** [s <= page_i <= e]: the second comparison is only evaluated when the
    first holds, and fails on [None]. *)
Definition contains (s : Z) (e : option Z) (page_i : Z) : option bool :=
  if s <=? page_i then
    match e with
    | Some e' => Some (page_i <=? e')
    | None => None
    end
  else Some false.

(** A [for] loop that stops at the first element passing [test], after
    changing that element in place; the flag tells whether one was found. *)
Fixpoint update_first {A : Type} (test : A -> option bool)
    (upd : A -> option A) (l : list A) : option (list A * bool) :=
  match l with
  | [] => Some ([], false)
  | x :: rest =>
      b <- test x ;;
      if b then
        x' <- upd x ;;
        Some (x' :: rest, true)
      else
        '(rest', found) <- update_first test upd rest ;;
        Some (x :: rest', found)
  end.

(** [for x in reversed(l)]: the same loop from the last element. *)
Definition update_first_reversed {A : Type} (test : A -> option bool)
    (upd : A -> option A) (l : list A) : option (list A * bool) :=
  '(l', found) <- update_first test upd (rev l) ;;
  Some (rev l', found).

Definition section_contains (page_i : Z) (s : section) : option bool :=
  contains (s_start s) (s_end s) page_i.

(** [sec["knowledge"].extend(result.knowledge)] *)
Definition section_extend (knowledge : list string) (s : section)
  : option section :=
  Some (set_s_knowledge s (s_knowledge s ++ knowledge)).

Definition chapter_contains (page_i : Z) (tc : string * chapter)
  : option bool :=
  contains (c_start (snd tc)) (c_end (snd tc)) page_i.

(** The page is in this chapter: its sections are searched in list order,
    and the chapter itself takes the knowledge when none contains the
    page. *)
Definition route_in_chapter (page_i : Z) (knowledge : list string)
    (tc : string * chapter) : option (string * chapter) :=
  let '(ch_title, ch_data) := tc in
  '(secs, in_sub) <- update_first (section_contains page_i)
                       (section_extend knowledge) (sections ch_data) ;;
  if in_sub then Some (ch_title, set_sections ch_data secs)
  else Some (ch_title,
             set_chapter_knowledge ch_data
               (chapter_knowledge ch_data ++ knowledge)).

Definition route_page (part_info : part) (page_i : Z)
    (knowledge : list string) : option part :=
  '(chs, in_chapter) <- update_first_reversed (chapter_contains page_i)
                          (route_in_chapter page_i knowledge)
                          (chapters part_info) ;;
  if in_chapter then Some (set_chapters part_info chs)
  else
    '(others, in_other) <- update_first_reversed (section_contains page_i)
                             (section_extend knowledge)
                             (other_sections part_info) ;;
    if in_other then Some (set_other_sections part_info others)
    else Some (set_part_knowledge part_info
                 (part_knowledge part_info ++ knowledge)).

(** ** The knowledge base *)

Record kb_section : Type := mk_kb_section {
  ks_title : string;
  ks_start : Z;
  ks_end : option Z;
  ks_knowledge : list string
}.

Record kb_chapter : Type := mk_kb_chapter {
  kc_start : Z;
  kc_end : option Z;
  kc_chapter_knowledge : list string;
  kc_sections : list kb_section
}.

Record kb_part : Type := mk_kb_part {
  kp_start : Z;
  kp_end : Z;
  kp_part_knowledge : list string;
  kp_chapters : Dict.t kb_chapter;
  kp_other_sections : list kb_section
}.

Definition knowledge_base : Type := Dict.t kb_part.

Definition dump_section (s : section) : kb_section :=
  {| ks_title := s_title s; ks_start := s_start s; ks_end := s_end s;
     ks_knowledge := s_knowledge s |}.

Definition dump_chapter (c : chapter) : kb_chapter :=
  {| kc_start := c_start c; kc_end := c_end c;
     kc_chapter_knowledge := chapter_knowledge c;
     kc_sections := fold_left (fun acc ssec => acc ++ [dump_section ssec])
                      (sections c) [] |}.

(** "Volcar a knowledge_base": the record stored under the part's title
    receives copies of the lists of the tree. *)
Definition dump_part (part_info : part) (kb_part0 : kb_part) : kb_part :=
  {| kp_start := kp_start kb_part0;
     kp_end := kp_end kb_part0;
     kp_part_knowledge := part_knowledge part_info;
     kp_chapters :=
       fold_left (fun d tc => Dict.set (fst tc) (dump_chapter (snd tc)) d)
         (chapters part_info) (kp_chapters kb_part0);
     kp_other_sections :=
       fold_left (fun acc o_sec => acc ++ [dump_section o_sec])
         (other_sections part_info) [] |}.

(** ** The page loop *)

(** [TEST_PAGES = 60]; [None] would process the whole document. *)
Definition TEST_PAGES : option Z := Some 60.

(** [TEST_PAGES if TEST_PAGES else total_pages] *)
Definition limit_pages (total_pages : Z) : Z :=
  match TEST_PAGES with
  | Some n => if n =? 0 then total_pages else n
  | None => total_pages
  end.

(** [range(lo, hi)] *)
Definition range (lo hi : Z) : list Z :=
  map (fun i => lo + Z.of_nat i) (seq 0 (Z.to_nat (hi - lo))).

Record PageContent : Type := mk_PageContent {
  has_content : bool;
  knowledge : list string
}.

(** What the page loop has done so far: the knowledge base, the number of
    calls of [process_page], and the routed batches (page index and
    knowledge points) in the order they were routed. *)
Record run_state : Type := mk_run_state {
  rs_kb : knowledge_base;
  rs_calls : nat;
  rs_routed : list (Z * list string)
}.

Section Run.

(** [process_page(client, doc[page_i].get_text())]: the answer of the
    language model for a page; it may differ from one call to the next,
    so it also depends on the number of calls made before.  The text
    extraction and the model are outside this development: they are taken
    to answer for every page index they are asked for. *)
Variable process_page : nat -> Z -> PageContent.

Variable total_pages : Z.

(** [for page_i in range(p_start, p_end + 1)] *)
Fixpoint page_loop (pages : list Z) (part_info : part) (calls : nat)
    (routed : list (Z * list string))
  : option (part * nat * list (Z * list string)) :=
  match pages with
  | [] => Some (part_info, calls, routed)
  | page_i :: rest =>
      if limit_pages total_pages <=? page_i then
        Some (part_info, calls, routed)
      else
        let result := process_page calls page_i in
        if negb (has_content result) then
          page_loop rest part_info (S calls) routed
        else
          part_info' <- route_page part_info page_i (knowledge result) ;;
          page_loop rest part_info' (S calls)
            (routed ++ [(page_i, knowledge result)])
  end.

(** One turn of [for part_info in parts] in "Recorrido de paginas". *)
Definition process_part (part_info : part) (st : run_state)
  : option (part * run_state) :=
  e <- p_end part_info ;;
  let p_s := p_start part_info in
  let p_e := Z.min e (limit_pages total_pages - 1) in
  let kb1 := Dict.set (p_title part_info)
               {| kp_start := p_s; kp_end := p_e; kp_part_knowledge := [];
                  kp_chapters := []; kp_other_sections := [] |}
               (rs_kb st) in
  '(part_info', calls, routed) <-
      page_loop (range p_s (p_e + 1)) part_info (rs_calls st)
        (rs_routed st) ;;
  _ <- Dict.get (p_title part_info) kb1 ;;
  Some (part_info',
        {| rs_kb := Dict.alter (dump_part part_info')
                      (p_title part_info) kb1;
           rs_calls := calls; rs_routed := routed |}).

Fixpoint process_parts (parts : list part) (st : run_state)
  : option (list part * run_state) :=
  match parts with
  | [] => Some ([], st)
  | part_info :: rest =>
      '(part_info', st1) <- process_part part_info st ;;
      '(rest', st2) <- process_parts rest st1 ;;
      Some (part_info' :: rest', st2)
  end.

End Run.

(** ** Generating the markdown files ("Generar .md") *)

(** [f"{n:02d}"] for an index [n >= 0]. *)
Definition format_02d (n : nat) : string :=
  let digits := NilZero.string_of_uint (Nat.to_uint n) in
  if (String.length digits <? 2)%nat then String.append "0" digits
  else digits.

(** One call of [analyze_knowledge] followed by [save_md]: the folder is
    named after the part and, for a chapter, the chapter; the path slug
    computed from the titles is not modelled. *)
Record export_unit : Type := mk_export_unit {
  eu_folder : list string;
  eu_prefix : string;
  eu_title : string;
  eu_analysis_title : string;
  eu_points : list string
}.

(** [combined = own[:]] then [combined.extend(sec["knowledge"])] for every
    section. *)
Definition combine_knowledge (own : list string) (secs : list kb_section)
  : list string :=
  fold_left (fun combined sec => combined ++ ks_knowledge sec) secs own.

Definition part_combined (kb_part0 : kb_part) : list string :=
  combine_knowledge (kp_part_knowledge kb_part0) (kp_other_sections kb_part0).

Definition combined_chap (chap_data : kb_chapter) : list string :=
  combine_knowledge (kc_chapter_knowledge chap_data) (kc_sections chap_data).

Definition overview_unit (folder : list string) (title : string)
    (combined : list string) : export_unit :=
  {| eu_folder := folder; eu_prefix := "00"; eu_title := "README";
     eu_analysis_title := String.append title " (Overview)";
     eu_points := combined |}.

Definition section_unit (folder : list string) (idx : nat) (sec : kb_section)
  : export_unit :=
  {| eu_folder := folder; eu_prefix := format_02d idx;
     eu_title := ks_title sec; eu_analysis_title := ks_title sec;
     eu_points := ks_knowledge sec |}.

(** [for idx, sec in enumerate(secs, start=idx)], with the [continue] on an
    empty ["knowledge"]. *)
Fixpoint export_sections (folder : list string) (idx : nat)
    (secs : list kb_section) : list export_unit :=
  match secs with
  | [] => []
  | sec :: rest =>
      match ks_knowledge sec with
      | [] => export_sections folder (S idx) rest
      | _ :: _ => section_unit folder idx sec
                    :: export_sections folder (S idx) rest
      end
  end.

Definition export_chapter (p_title0 chap_t : string) (chap_data : kb_chapter)
  : list export_unit :=
  overview_unit [p_title0; chap_t] chap_t (combined_chap chap_data)
    :: export_sections [p_title0; chap_t] 1 (kc_sections chap_data).

(** [for chap_i, chap_t in enumerate(chapter_titles, start=1)]: the chapter
    is read back from the dictionary by its title. *)
Fixpoint export_chapters (p_title0 : string) (chapter_titles : list string)
    (d : Dict.t kb_chapter) : option (list export_unit) :=
  match chapter_titles with
  | [] => Some []
  | chap_t :: rest =>
      chap_data <- Dict.get chap_t d ;;
      units <- export_chapters p_title0 rest d ;;
      Some (export_chapter p_title0 chap_t chap_data ++ units)
  end.

Definition export_part (p_title0 : string) (kb_part0 : kb_part)
  : option (list export_unit) :=
  units <- export_chapters p_title0 (Dict.keys (kp_chapters kb_part0))
             (kp_chapters kb_part0) ;;
  Some (overview_unit [p_title0] p_title0 (part_combined kb_part0)
          :: export_sections [p_title0] 1 (kp_other_sections kb_part0)
          ++ units).

(** [for part_info in parts]: the record is read from the knowledge base
    under the part's title. *)
Fixpoint export (parts : list part) (kb : knowledge_base)
  : option (list export_unit) :=
  match parts with
  | [] => Some []
  | part_info :: rest =>
      kb_part0 <- Dict.get (p_title part_info) kb ;;
      units <- export_part (p_title part_info) kb_part0 ;;
      units' <- export rest kb ;;
      Some (units ++ units')
  end.

(** [not markdown_text.strip()] *)
Fixpoint blank (s : string) : bool :=
  match s with
  | EmptyString => true
  | String c s' => Re.isspace c && blank s'
  end.

Record md_file : Type := mk_md_file {
  md_folder : list string;
  md_prefix : string;
  md_title : string;
  md_text : string
}.

Section Files.

(** The answer of the language model to the request for an analysis made
    after [n] earlier ones. *)
Variable completion : nat -> string -> list string -> string.

Definition analyze_knowledge (n : nat) (title : string)
    (knowledge_points : list string) : string :=
  match knowledge_points with
  | [] => ""
  | _ :: _ => completion n title knowledge_points
  end.

(** The requests one call of [analyze_knowledge] makes: none for an empty
    list. *)
Definition requests (knowledge_points : list string) : nat :=
  match knowledge_points with
  | [] => 0
  | _ :: _ => 1
  end.

Definition save_md (folder : list string) (filename_prefix title
    markdown_text : string) : list md_file :=
  if blank markdown_text then []
  else [{| md_folder := folder; md_prefix := filename_prefix;
           md_title := title; md_text := markdown_text |}].

(** The files written for a sequence of units, in order. *)
Fixpoint write_units (n : nat) (units : list export_unit) : list md_file :=
  match units with
  | [] => []
  | u :: rest =>
      save_md (eu_folder u) (eu_prefix u) (eu_title u)
        (analyze_knowledge n (eu_analysis_title u) (eu_points u))
        ++ write_units (n + requests (eu_points u)) rest
  end.

End Files.

(** ** The whole of [main], from the outline to the files *)

Record outcome : Type := mk_outcome {
  out_parts : list part;
  out_kb : knowledge_base;
  out_routed : list (Z * list string);
  out_units : list export_unit
}.

(** From the outline to the end of the page loop. *)
Definition route_all (process_page : nat -> Z -> PageContent)
    (toc : list toc_entry) (total_pages : Z) (kb0 : knowledge_base)
  : option (list part * run_state) :=
  parts0 <- outline_tree toc total_pages ;;
  process_parts process_page total_pages parts0
    {| rs_kb := kb0; rs_calls := 0; rs_routed := [] |}.

Definition main (process_page : nat -> Z -> PageContent)
    (toc : list toc_entry) (total_pages : Z) (kb0 : knowledge_base)
  : option outcome :=
  '(parts, st) <- route_all process_page toc total_pages kb0 ;;
  units <- export parts (rs_kb st) ;;
  Some {| out_parts := parts; out_kb := rs_kb st;
          out_routed := rs_routed st; out_units := units |}.

(** * Properties *)

Unset Implicit Arguments.

(** ** Dictionaries *)

Module DictFacts.
Section DictFacts.
Variable V : Type.
Implicit Types (d : Dict.t V) (k : string) (v : V).

Lemma keys_app d1 d2 :
  Dict.keys (d1 ++ d2) = Dict.keys d1 ++ Dict.keys d2.
Proof. apply map_app. Qed.

Lemma keys_alter f k d : Dict.keys (Dict.alter f k d) = Dict.keys d.
Proof.
  induction d as [|[k' v'] d IH]; simpl; [reflexivity|].
  destruct (String.eqb k k'); simpl; [reflexivity|].
  now rewrite IH.
Qed.

Lemma keys_set_in k v d :
  In k (Dict.keys d) -> Dict.keys (Dict.set k v d) = Dict.keys d.
Proof.
  induction d as [|[k' v'] d IH]; simpl; [tauto|].
  intros H. destruct (String.eqb_spec k k') as [->|Hne]; simpl.
  - reflexivity.
  - f_equal. apply IH. destruct H as [H|H]; [congruence|exact H].
Qed.

Lemma keys_set_notin k v d :
  ~ In k (Dict.keys d) ->
  Dict.keys (Dict.set k v d) = Dict.keys d ++ [k].
Proof.
  induction d as [|[k' v'] d IH]; simpl; [reflexivity|].
  intros H. destruct (String.eqb_spec k k') as [->|Hne]; simpl.
  - exfalso. apply H. now left.
  - f_equal. apply IH. tauto.
Qed.

Lemma NoDup_keys_set k v d :
  NoDup (Dict.keys d) -> NoDup (Dict.keys (Dict.set k v d)).
Proof.
  intros Hnd. destruct (in_dec string_dec k (Dict.keys d)) as [Hin|Hout].
  - now rewrite keys_set_in.
  - rewrite keys_set_notin by assumption.
    apply NoDup_rev in Hnd. rewrite <- (rev_involutive (_ ++ _)).
    apply NoDup_rev. rewrite rev_app_distr. simpl. constructor.
    + now rewrite <- in_rev.
    + exact Hnd.
Qed.

Lemma get_set_same k v d : Dict.get k (Dict.set k v d) = Some v.
Proof.
  induction d as [|[k' v'] d IH]; simpl.
  - now rewrite String.eqb_refl.
  - destruct (String.eqb k k') eqn:E; simpl; rewrite E; auto.
Qed.

Lemma get_set_other k k0 v d :
  k0 <> k -> Dict.get k0 (Dict.set k v d) = Dict.get k0 d.
Proof.
  intros Hne. induction d as [|[k' v'] d IH]; simpl.
  - destruct (String.eqb_spec k0 k); [contradiction|reflexivity].
  - destruct (String.eqb_spec k k') as [->|Hk]; simpl.
    + destruct (String.eqb_spec k0 k'); [contradiction|reflexivity].
    + now rewrite IH.
Qed.

Lemma get_in_keys k d :
  In k (Dict.keys d) -> exists v, Dict.get k d = Some v.
Proof.
  induction d as [|[k' v'] d IH]; simpl; [tauto|].
  intros H. destruct (String.eqb_spec k k') as [->|Hne]; eauto.
  apply IH. destruct H; [congruence|assumption].
Qed.

Lemma get_app_notin k d1 d2 :
  ~ In k (Dict.keys d1) -> Dict.get k (d1 ++ d2) = Dict.get k d2.
Proof.
  induction d1 as [|[k' v'] d1 IH]; simpl; [reflexivity|].
  intros H. destruct (String.eqb_spec k k') as [->|Hne]; [|apply IH]; tauto.
Qed.

Lemma alter_app_notin f k d1 d2 :
  ~ In k (Dict.keys d1) ->
  Dict.alter f k (d1 ++ d2) = d1 ++ Dict.alter f k d2.
Proof.
  induction d1 as [|[k' v'] d1 IH]; simpl; [reflexivity|].
  intros H. destruct (String.eqb_spec k k') as [->|Hne].
  - tauto.
  - now rewrite IH by tauto.
Qed.

Lemma get_In k v d : Dict.get k d = Some v -> In (k, v) d.
Proof.
  induction d as [|[k' v'] d IH]; simpl; [discriminate|].
  destruct (String.eqb_spec k k') as [->|Hne].
  - intros [= ->]. now left.
  - intros H. right. now apply IH.
Qed.

Lemma In_get k v d :
  NoDup (Dict.keys d) -> In (k, v) d -> Dict.get k d = Some v.
Proof.
  induction d as [|[k' v'] d IH]; simpl; [tauto|].
  intros Hnd [H|H].
  - injection H as -> ->. now rewrite String.eqb_refl.
  - inversion Hnd as [|? ? Hout Hnd']; subst.
    destruct (String.eqb_spec k k') as [->|Hne]; [|now apply IH].
    exfalso. apply Hout. change k' with (fst (k', v)). now apply in_map.
Qed.

Lemma get_alter_same f k v d :
  Dict.get k d = Some v -> Dict.get k (Dict.alter f k d) = Some (f v).
Proof.
  induction d as [|[k' v'] d IH]; simpl; [discriminate|].
  destruct (String.eqb k k') eqn:E; simpl; rewrite E.
  - now intros [= ->].
  - exact IH.
Qed.

Lemma get_alter_other f k k0 d :
  k0 <> k -> Dict.get k0 (Dict.alter f k d) = Dict.get k0 d.
Proof.
  intros Hne. induction d as [|[k' v'] d IH]; simpl; [reflexivity|].
  destruct (String.eqb_spec k k') as [->|Hk]; simpl.
  - destruct (String.eqb_spec k0 k'); [contradiction|reflexivity].
  - now rewrite IH.
Qed.

Lemma keys_set_incl k v d k0 :
  In k0 (Dict.keys d) -> In k0 (Dict.keys (Dict.set k v d)).
Proof.
  intros H. destruct (in_dec string_dec k (Dict.keys d)) as [Hin|Hout].
  - now rewrite keys_set_in.
  - rewrite keys_set_notin by assumption. apply in_or_app. now left.
Qed.

Lemma keys_set_key k v d : In k (Dict.keys (Dict.set k v d)).
Proof.
  destruct (in_dec string_dec k (Dict.keys d)) as [Hin|Hout].
  - now rewrite keys_set_in.
  - rewrite keys_set_notin by assumption. apply in_or_app. right. now left.
Qed.

End DictFacts.
End DictFacts.

Module DictValues.
Section DictValues.
Variable V : Type.
Variable P : V -> Prop.

Lemma Forall_values_set k v (d : Dict.t V) :
  Forall P (Dict.values d) -> P v -> Forall P (Dict.values (Dict.set k v d)).
Proof.
  intros Hd Hv. induction d as [|[k' v'] d IH]; simpl in *.
  - now constructor.
  - inversion Hd; subst.
    destruct (String.eqb k k'); simpl; constructor; auto.
Qed.

Lemma Forall_values_alter f k (d : Dict.t V) :
  Forall P (Dict.values d) -> (forall v, P v -> P (f v)) ->
  Forall P (Dict.values (Dict.alter f k d)).
Proof.
  intros Hd Hf. induction d as [|[k' v'] d IH]; simpl in *.
  - constructor.
  - inversion Hd; subst.
    destruct (String.eqb k k'); simpl; constructor; auto.
Qed.
End DictValues.
End DictValues.

(** ** The fragment lists of a tree

    Every record owns one list of knowledge points; [part_lists] gives the
    lists of a part in a fixed order: the part's own list, then for each
    chapter its own list and those of its sections, then the lists of the
    part's other sections. *)

Definition chapter_lists (c : chapter) : list (list string) :=
  chapter_knowledge c :: map s_knowledge (sections c).

Definition part_lists (p : part) : list (list string) :=
  part_knowledge p
    :: flat_map chapter_lists (Dict.values (chapters p))
    ++ map s_knowledge (other_sections p).

Definition tree_lists (parts : list part) : list (list string) :=
  flat_map part_lists parts.

(** ** What the construction guarantees *)

Definition no_knowledge (p : part) : Prop :=
  Forall (fun l => l = []) (part_lists p).

Definition unique_chapters (p : part) : Prop :=
  NoDup (Dict.keys (chapters p)).

Lemma build_loop_invariant (Inv : build_state -> Prop) :
  Inv ([], None) ->
  (forall st e, Inv st -> Inv (build_step st e)) ->
  forall toc, Inv (build_loop toc).
Proof.
  intros H0 Hstep toc. unfold build_loop.
  generalize dependent ([] : list part, None : option part).
  induction toc as [|e toc IH]; simpl; intros st Hst; auto.
Qed.

Definition state_all (P : part -> Prop) (st : build_state) : Prop :=
  Forall P (fst st) /\ forall cp, snd st = Some cp -> P cp.

Lemma state_all_close P st : state_all P st -> Forall P (close_parts st).
Proof.
  intros [Hps Hcp]. unfold close_parts. destruct (snd st) as [cp|]; auto.
  apply Forall_app. split; auto.
Qed.

(** An invariant of the parts is kept by the loop when it holds of a new
    part and is kept by the three ways a part is changed. *)
Lemma build_step_all (P : part -> Prop) :
  (forall title start_idx, P (new_part title start_idx)) ->
  (forall cp title start_idx, P cp ->
     P (set_chapters cp
          (Dict.set title (new_chapter start_idx) (chapters cp)))) ->
  (forall cp k sec, P cp -> s_knowledge sec = [] -> s_end sec = None ->
     P (set_chapters cp
          (Dict.alter (fun c => set_sections c (sections c ++ [sec])) k
             (chapters cp)))) ->
  (forall cp sec, P cp -> s_knowledge sec = [] -> s_end sec = None ->
     P (set_other_sections cp (other_sections cp ++ [sec]))) ->
  forall st e, state_all P st -> state_all P (build_step st e).
Proof.
  intros Hnew Hchap Hsec Hother [parts current_part] [[level title] page_num]
    [Hps Hcp].
  simpl in Hps, Hcp. unfold build_step.
  destruct (is_part_entry level title).
  - split; simpl.
    + destruct current_part as [cp|]; auto.
      apply Forall_app. split; auto.
    + intros cp [= <-]. apply Hnew.
  - destruct current_part as [cp|]; [|split; auto].
    destruct (is_chapter_entry level title).
    + split; simpl; auto. intros cp' [= <-]. apply Hchap; auto.
    + destruct (last_opt (Dict.keys (chapters cp))) as [k|].
      * split; simpl; auto. intros cp' [= <-]. apply Hsec; auto.
      * split; simpl; auto. intros cp' [= <-]. apply Hother; auto.
Qed.

Lemma build_all (P : part -> Prop) :
  (forall title start_idx, P (new_part title start_idx)) ->
  (forall cp title start_idx, P cp ->
     P (set_chapters cp
          (Dict.set title (new_chapter start_idx) (chapters cp)))) ->
  (forall cp k sec, P cp -> s_knowledge sec = [] -> s_end sec = None ->
     P (set_chapters cp
          (Dict.alter (fun c => set_sections c (sections c ++ [sec])) k
             (chapters cp)))) ->
  (forall cp sec, P cp -> s_knowledge sec = [] -> s_end sec = None ->
     P (set_other_sections cp (other_sections cp ++ [sec]))) ->
  forall toc, Forall P (build toc).
Proof.
  intros Hnew Hchap Hsec Hother toc. unfold build.
  apply state_all_close. apply build_loop_invariant.
  - split; simpl; [constructor|discriminate].
  - intros st e. now apply build_step_all.
Qed.

Lemma build_unique_chapters toc : Forall unique_chapters (build toc).
Proof.
  apply build_all; unfold unique_chapters; simpl; intros.
  - constructor.
  - now apply DictFacts.NoDup_keys_set.
  - now rewrite DictFacts.keys_alter.
  - assumption.
Qed.

Lemma build_no_knowledge toc : Forall no_knowledge (build toc).
Proof.
  apply build_all; unfold no_knowledge, part_lists; simpl.
  - intros. repeat constructor.
  - intros cp title start_idx H. inversion H as [|? ? Hk Hrest]; subst.
    constructor; [assumption|]. apply Forall_app in Hrest as [Hc Ho].
    apply Forall_app. split; [|assumption].
    apply Forall_flat_map. apply DictValues.Forall_values_set.
    + now apply Forall_flat_map.
    + repeat constructor.
  - intros cp k sec H Hsec _. inversion H as [|? ? Hk Hrest]; subst.
    constructor; [assumption|]. apply Forall_app in Hrest as [Hc Ho].
    apply Forall_app. split; [|assumption].
    apply Forall_flat_map. apply DictValues.Forall_values_alter.
    + now apply Forall_flat_map.
    + intros c Hc'. unfold chapter_lists in *. simpl.
      inversion Hc'; subst. constructor; [assumption|].
      rewrite map_app. apply Forall_app. split; [assumption|].
      simpl. now repeat constructor.
  - intros cp sec H Hsec _. inversion H as [|? ? Hk Hrest]; subst.
    constructor; [assumption|]. apply Forall_app in Hrest as [Hc Ho].
    apply Forall_app. split; [assumption|].
    rewrite map_app. apply Forall_app. split; [assumption|].
    simpl. now repeat constructor.
Qed.

(** ** The resolver, position by position

    On a dictionary with distinct keys the lookups by title of
    [resolve_chapters_loop] find the chapter at the position of the title,
    so the loop computes [resolve_chapters_at]. *)

Fixpoint resolve_chapters_at (d : Dict.t chapter) (part_end : Z)
  : Dict.t chapter :=
  match d with
  | [] => []
  | (t, c) :: rest =>
      let e := match rest with
               | (_, nxt) :: _ => c_start nxt - 1
               | [] => part_end
               end in
      (t, resolve_chapter c e) :: resolve_chapters_at rest part_end
  end.

Definition resolve_part_at (p : part) (e : Z) : part :=
  {| p_title := p_title p; p_start := p_start p; p_end := Some e;
     part_knowledge := part_knowledge p;
     chapters := resolve_chapters_at (chapters p) e;
     other_sections := resolve_sections (other_sections p) e |}.

Fixpoint resolve_at (parts : list part) (total_pages : Z) : list part :=
  match parts with
  | [] => []
  | p :: rest =>
      let e := match rest with
               | nxt :: _ => p_start nxt - 1
               | [] => total_pages - 1
               end in
      resolve_part_at p e :: resolve_at rest total_pages
  end.

Lemma NoDup_app_disjoint {A : Type} (l1 l2 : list A) :
  NoDup (l1 ++ l2) -> forall x, In x l1 -> ~ In x l2.
Proof.
  induction l1 as [|a l1 IH]; simpl; intros Hnd x Hin; [contradiction|].
  inversion Hnd as [|? ? Hout Hnd']; subst. destruct Hin as [->|Hin].
  - intros H. apply Hout. apply in_or_app. now right.
  - now apply IH.
Qed.

Lemma resolve_chapters_loop_at (todo done : Dict.t chapter) (part_end : Z) :
  NoDup (Dict.keys (done ++ todo)) ->
  resolve_chapters_loop (Dict.keys todo) (done ++ todo) part_end
  = Some (done ++ resolve_chapters_at todo part_end).
Proof.
  revert done. induction todo as [|[t c] rest IH]; intros done Hnd.
  - simpl. now rewrite !app_nil_r.
  - rewrite DictFacts.keys_app in Hnd.
    pose proof (NoDup_app_disjoint _ _ Hnd) as Hdisj.
    pose proof (NoDup_app_remove_l _ _ Hnd) as Hnd2.
    simpl in Hdisj, Hnd2.
    assert (Hout : ~ In t (Dict.keys done)).
    { intros Hin. apply (Hdisj t Hin). now left. }
    set (e := match rest with
              | (_, nxt) :: _ => c_start nxt - 1
              | [] => part_end
              end).
    assert (He :
      match Dict.keys rest with
      | nxt :: _ => c0 <- Dict.get nxt (done ++ (t, c) :: rest) ;;
                    Some (c_start c0 - 1)
      | [] => Some part_end
      end = Some e).
    { subst e. destruct rest as [|[t2 c2] rest2]; [reflexivity|]. simpl.
      rewrite DictFacts.get_app_notin.
      - simpl. destruct (String.eqb_spec t2 t) as [->|_].
        + exfalso. inversion Hnd2 as [|? ? Hbad _]; subst.
          apply Hbad. now left.
        + now rewrite String.eqb_refl.
      - intros Hin. apply (Hdisj t2 Hin). right. now left. }
    cbn [Dict.keys map fst resolve_chapters_loop resolve_chapters_at].
    change (map fst rest) with (Dict.keys rest).
    rewrite He. cbn [bind].
    rewrite DictFacts.get_app_notin by assumption.
    simpl Dict.get. rewrite String.eqb_refl. cbn [bind].
    rewrite DictFacts.alter_app_notin by assumption.
    simpl Dict.alter. rewrite String.eqb_refl.
    fold e.
    replace (done ++ (t, resolve_chapter c e) :: rest)
      with ((done ++ [(t, resolve_chapter c e)]) ++ rest)
      by now rewrite <- app_assoc.
    rewrite IH.
    + now rewrite <- app_assoc.
    + rewrite !DictFacts.keys_app. simpl. now rewrite <- app_assoc.
Qed.

Lemma resolve_chapters_unique (d : Dict.t chapter) (part_end : Z) :
  NoDup (Dict.keys d) ->
  resolve_chapters d part_end = Some (resolve_chapters_at d part_end).
Proof.
  intros Hnd. unfold resolve_chapters.
  exact (resolve_chapters_loop_at d [] part_end Hnd).
Qed.

Lemma resolve_unique (parts : list part) (total_pages : Z) :
  Forall unique_chapters parts ->
  resolve parts total_pages = Some (resolve_at parts total_pages).
Proof.
  induction 1 as [|p rest Hp Hrest IH]; [reflexivity|].
  cbn [resolve resolve_at]. unfold resolve_part.
  rewrite (resolve_chapters_unique _ _ Hp). cbn [bind].
  rewrite IH. reflexivity.
Qed.

Lemma outline_tree_at (toc : list toc_entry) (total_pages : Z) :
  outline_tree toc total_pages = Some (resolve_at (build toc) total_pages).
Proof. apply resolve_unique, build_unique_chapters. Qed.

(** ** Ranges of siblings *)

(** The range of a record: its ["start"] and its ["end"]. *)
Definition range_of : Type := (Z * option Z)%type.

Definition section_range (s : section) : range_of := (s_start s, s_end s).
Definition chapter_range (c : chapter) : range_of := (c_start c, c_end c).
Definition part_range (p : part) : range_of := (p_start p, p_end p).

Definition chapter_ranges (p : part) : list range_of :=
  map chapter_range (Dict.values (chapters p)).

(** Every sibling but the last ends one page before the next one starts,
    and the last one ends where the parent ends. *)
Definition sibling_ends (parent_end : Z) (rs : list range_of) : Prop :=
  forall i s e, nth_error rs i = Some (s, e) ->
    match nth_error rs (S i) with
    | Some (s', _) => e = Some (s' - 1)
    | None => e = Some parent_end
    end.

Lemma sibling_ends_nil parent_end : sibling_ends parent_end [].
Proof. intros [|i] s e H; discriminate. Qed.

Lemma sibling_ends_cons parent_end s e rs :
  e = Some match rs with
           | (s', _) :: _ => s' - 1
           | [] => parent_end
           end ->
  sibling_ends parent_end rs ->
  sibling_ends parent_end ((s, e) :: rs).
Proof.
  intros He Hrs [|i] s0 e0 H.
  - injection H as <- <-. simpl. now destruct rs as [|[s' e'] rs'].
  - apply (Hrs i s0 e0 H).
Qed.

Lemma sibling_ends_inv parent_end s e rs :
  sibling_ends parent_end ((s, e) :: rs) ->
  e = Some match rs with
           | (s', _) :: _ => s' - 1
           | [] => parent_end
           end
  /\ sibling_ends parent_end rs.
Proof.
  intros H. split.
  - specialize (H 0%nat s e eq_refl). simpl in H.
    now destruct rs as [|[s' e'] rs'].
  - intros i s0 e0 Hi. apply (H (S i) s0 e0 Hi).
Qed.

Lemma resolve_sections_ends secs parent_end :
  sibling_ends parent_end
    (map section_range (resolve_sections secs parent_end)).
Proof.
  induction secs as [|s rest IH]; [apply sibling_ends_nil|].
  cbn [resolve_sections map]. apply sibling_ends_cons; [|exact IH].
  destruct rest as [|s2 rest2]; reflexivity.
Qed.

Lemma resolve_chapters_at_ends d part_end :
  sibling_ends part_end
    (map chapter_range (Dict.values (resolve_chapters_at d part_end))).
Proof.
  induction d as [|[t c] rest IH]; [apply sibling_ends_nil|].
  cbn [resolve_chapters_at Dict.values map snd].
  apply sibling_ends_cons; [|exact IH].
  destruct rest as [|[t2 c2] rest2]; reflexivity.
Qed.

Lemma resolve_at_ends parts total_pages :
  sibling_ends (total_pages - 1)
    (map part_range (resolve_at parts total_pages)).
Proof.
  induction parts as [|p rest IH]; [apply sibling_ends_nil|].
  cbn [resolve_at map]. apply sibling_ends_cons; [|exact IH].
  destruct rest as [|p2 rest2]; reflexivity.
Qed.

(** The records below a resolved part, each list against the end of its
    parent. *)
Definition part_resolved (p : part) : Prop :=
  exists e,
    p_end p = Some e
    /\ sibling_ends e (chapter_ranges p)
    /\ sibling_ends e (map section_range (other_sections p))
    /\ forall c, In c (Dict.values (chapters p)) ->
         exists ce,
           c_end c = Some ce
           /\ sibling_ends ce (map section_range (sections c)).

Lemma resolve_chapters_at_values d part_end c :
  In c (Dict.values (resolve_chapters_at d part_end)) ->
  exists c0 e, c = resolve_chapter c0 e.
Proof.
  induction d as [|[t c1] rest IH]; simpl; [tauto|].
  intros [<-|H]; eauto.
Qed.

Lemma resolve_part_at_resolved p e : part_resolved (resolve_part_at p e).
Proof.
  exists e. unfold chapter_ranges. simpl. repeat split.
  - apply resolve_chapters_at_ends.
  - apply resolve_sections_ends.
  - intros c Hc. apply resolve_chapters_at_values in Hc as (c0 & ce & ->).
    exists ce. split; [reflexivity|]. apply resolve_sections_ends.
Qed.

Lemma resolve_at_resolved parts total_pages :
  Forall part_resolved (resolve_at parts total_pages).
Proof.
  induction parts as [|p rest IH]; simpl; constructor; auto.
  apply resolve_part_at_resolved.
Qed.

(** The resolver writes ["end"] fields only. *)
Lemma resolve_sections_starts secs parent_end :
  map s_start (resolve_sections secs parent_end) = map s_start secs.
Proof. induction secs as [|s rest IH]; simpl; [|rewrite IH]; reflexivity. Qed.

Lemma resolve_at_starts parts total_pages :
  map p_start (resolve_at parts total_pages) = map p_start parts.
Proof. induction parts as [|p rest IH]; simpl; [|rewrite IH]; reflexivity. Qed.

Lemma resolve_at_titles parts total_pages :
  map p_title (resolve_at parts total_pages) = map p_title parts.
Proof. induction parts as [|p rest IH]; simpl; [|rewrite IH]; reflexivity. Qed.


(** ** The example of the specification *)

Definition example_toc : list toc_entry :=
  [(1, "Part I", 1); (2, "Chapter 1", 1); (2, "Chapter 2", 10)].

(** The ranges of the parts of a tree and, for each part, of its
    chapters. *)
Definition ranges_of_tree (parts : list part)
  : list (string * range_of * list (string * range_of)) :=
  map (fun p => (p_title p, part_range p,
                 map (fun tc => (fst tc, chapter_range (snd tc)))
                   (chapters p)))
    parts.

(** C9, as amended. With 20 pages the example outline gives Part I the
    range [0,19], Chapter 1 the range [0,8] and Chapter 2 the range
    [9,19]. *)
Theorem example_ranges :
  option_map ranges_of_tree (outline_tree example_toc 20)
  = Some [("Part I", (0, Some 19),
           [("Chapter 1", (0, Some 8)); ("Chapter 2", (9, Some 19))])].
Proof. reflexivity. Qed.

(** C9 as stated fails: Chapter 1 does not get the range [0,9]. *)
Lemma example_ranges_not_as_stated :
  option_map ranges_of_tree (outline_tree example_toc 20)
  <> Some [("Part I", (0, Some 19),
            [("Chapter 1", (0, Some 9)); ("Chapter 2", (9, Some 19))])].
Proof. vm_compute. discriminate. Qed.

(** ** Pages and ranges *)

(** The page lies in the range, by the test the page loop uses. *)
Definition in_range (r : range_of) (page_i : Z) : Prop :=
  contains (fst r) (snd r) page_i = Some true.

Definition part_contains (p : part) (page_i : Z) : Prop :=
  in_range (part_range p) page_i.

Lemma contains_true_iff s e page_i :
  contains s e page_i = Some true
  <-> s <= page_i /\ exists e', e = Some e' /\ page_i <= e'.
Proof.
  unfold contains. destruct (Z.leb_spec s page_i) as [Hle|Hgt].
  - destruct e as [e'|].
    + split.
      * intros [= H]. apply Z.leb_le in H. eauto.
      * intros (_ & e0 & [= <-] & H). f_equal. now apply Z.leb_le.
    + split; [discriminate|]. intros (_ & e0 & [=] & _).
  - split; [discriminate|]. intros [H _]. lia.
Qed.

(** The same relation between siblings, read from the end of one to the
    start of the next. *)
Definition adjacent (parent_end : Z) (rs : list range_of) : Prop :=
  forall i s e, nth_error rs i = Some (s, e) ->
    exists e',
      e = Some e'
      /\ match nth_error rs (S i) with
         | Some (s', _) => e' + 1 = s'
         | None => e' = parent_end
         end.

Lemma sibling_ends_adjacent parent_end rs :
  sibling_ends parent_end rs -> adjacent parent_end rs.
Proof.
  intros H i s e Hi. specialize (H i s e Hi).
  destruct (nth_error rs (S i)) as [[s' e2]|].
  - exists (s' - 1). split; [assumption|lia].
  - exists parent_end. now split.
Qed.

Definition part_adjacent (p : part) : Prop :=
  exists e,
    p_end p = Some e
    /\ adjacent e (chapter_ranges p)
    /\ adjacent e (map section_range (other_sections p))
    /\ forall c, In c (Dict.values (chapters p)) ->
         exists ce,
           c_end c = Some ce
           /\ adjacent ce (map section_range (sections c)).

Lemma part_resolved_adjacent p : part_resolved p -> part_adjacent p.
Proof.
  intros (e & He & Hc & Ho & Hs). exists e.
  repeat split; auto using sibling_ends_adjacent.
  intros c Hin. destruct (Hs c Hin) as (ce & Hce & Hsec).
  exists ce. auto using sibling_ends_adjacent.
Qed.

Fixpoint nondecreasing (l : list Z) : Prop :=
  match l with
  | a :: (b :: _) as rest => a <= b /\ nondecreasing rest
  | _ => True
  end.

Lemma nondecreasing_head a l :
  nondecreasing (a :: l) -> forall x, In x l -> a <= x.
Proof.
  revert a. induction l as [|b l IH]; intros a H x Hin; [contradiction|].
  destruct H as [Hab Hrest]. destruct Hin as [<-|Hin]; [assumption|].
  specialize (IH b Hrest x Hin). lia.
Qed.

Lemma nondecreasing_tail a l : nondecreasing (a :: l) -> nondecreasing l.
Proof. destruct l as [|b l]; simpl; tauto. Qed.

(** With starts in increasing order the siblings split the pages from the
    first start to the end of the parent: each page is in the range of one
    sibling and of no other. *)
Lemma siblings_cover_once parent_end rs :
  sibling_ends parent_end rs ->
  nondecreasing (map fst rs) ->
  forall first, nth_error rs 0 = Some first ->
  forall page_i, fst first <= page_i <= parent_end ->
  exists i,
    (exists r, nth_error rs i = Some r /\ in_range r page_i)
    /\ forall j r, nth_error rs j = Some r -> in_range r page_i -> j = i.
Proof.
  induction rs as [|[s e] rs IH]; intros Hends Hsorted first Hfirst page_i Hp.
  - discriminate.
  - injection Hfirst as <-. simpl in Hp.
    apply sibling_ends_inv in Hends as [He Hends].
    destruct rs as [|[s' e'] rs'].
    + exists 0%nat. split.
      * exists (s, e). split; [reflexivity|].
        apply contains_true_iff. simpl. split; [lia|].
        exists parent_end. split; [assumption|lia].
      * intros [|[|j]] r Hj _; [reflexivity|discriminate|discriminate].
    + destruct Hsorted as [Hss Hsorted].
      destruct (Z_lt_le_dec page_i s') as [Hlt|Hge].
      * exists 0%nat. split.
        -- exists (s, e). split; [reflexivity|].
           apply contains_true_iff. simpl. split; [lia|].
           exists (s' - 1). split; [assumption|lia].
        -- intros [|j] r Hj Hr; [reflexivity|]. exfalso.
           apply contains_true_iff in Hr as [Hr _].
           simpl in Hj. apply nth_error_In in Hj.
           destruct Hj as [<-|Hj]; [simpl in Hr; lia|].
           assert (s' <= fst r); [|lia].
           apply (nondecreasing_head s' (map fst rs') Hsorted).
           now apply in_map.
      * destruct (IH Hends Hsorted (s', e') eq_refl page_i) as (i & Hi & Hu).
        { simpl. lia. }
        exists (S i). split; [exact Hi|].
        intros [|j] r Hj Hr.
        -- exfalso. injection Hj as <-.
           apply contains_true_iff in Hr as (_ & e0 & He0 & Hle).
           simpl in He0. rewrite He in He0. injection He0 as <-. lia.
        -- f_equal. apply (Hu j r Hj Hr).
Qed.

(** C1, as amended. In the resolved tree of any outline, in every list of
    siblings (the Parts, the Chapters of a Part, the Sections of a Chapter,
    the other sections of a Part) each sibling but the last has
    end + 1 = start of the next and the last has the end of its parent,
    total_pages - 1 for the Parts; the first sibling starts where its own
    outline entry says.  When the Parts start in non-decreasing order,
    every page index from the first Part's start to total_pages - 1 is in
    the range of exactly one Part. *)
Theorem sibling_ranges_adjacent (toc : list toc_entry) (total_pages : Z) :
  exists parts,
    outline_tree toc total_pages = Some parts
    /\ adjacent (total_pages - 1) (map part_range parts)
    /\ Forall part_adjacent parts
    /\ (nondecreasing (map p_start parts) ->
        forall first, nth_error parts 0 = Some first ->
        forall page_i, p_start first <= page_i <= total_pages - 1 ->
        exists i,
          (exists p, nth_error parts i = Some p /\ part_contains p page_i)
          /\ forall j q, nth_error parts j = Some q ->
               part_contains q page_i -> j = i).
Proof.
  exists (resolve_at (build toc) total_pages).
  split; [apply outline_tree_at|].
  split; [apply sibling_ends_adjacent, resolve_at_ends|].
  split.
  - eapply Forall_impl; [apply part_resolved_adjacent|].
    apply resolve_at_resolved.
  - intros Hsorted first Hfirst page_i Hp.
    set (parts := resolve_at (build toc) total_pages) in *.
    destruct (siblings_cover_once (total_pages - 1) (map part_range parts))
      with (first := part_range first) (page_i := page_i)
      as (i & (r & Hi & Hr) & Hu).
    + apply resolve_at_ends.
    + now rewrite map_map.
    + rewrite nth_error_map, Hfirst. reflexivity.
    + exact Hp.
    + exists i. split.
      * rewrite nth_error_map in Hi.
        destruct (nth_error parts i) as [p|]; [|discriminate].
        injection Hi as <-. exists p. now split.
      * intros j q Hj Hq. apply (Hu j (part_range q)); [|exact Hq].
        rewrite nth_error_map, Hj. reflexivity.
Qed.

(** C1 as stated fails: a page before the first Part's start is in no
    Part's range.  The outline has one Part on page 3 of 10. *)
Lemma page_before_first_part :
  ~ (forall toc total_pages parts,
       outline_tree toc total_pages = Some parts ->
       forall page_i, 0 <= page_i <= total_pages - 1 ->
       exists i p, nth_error parts i = Some p /\ part_contains p page_i).
Proof.
  intros H.
  destruct (H [(1, "Part I", 3)] 10 _ eq_refl 0) as (i & p & Hi & Hp);
    [lia|].
  destruct i as [|[|i]]; simpl in Hi; try discriminate.
  injection Hi as <-. vm_compute in Hp. discriminate.
Qed.

(** Parts whose starts go back in the outline overlap: with Parts on pages
    1, 11 and 4 of 30, page index 5 is in the first and in the third. *)
Lemma parts_out_of_order_overlap :
  exists parts p1 p3,
    outline_tree [(1, "Part A", 1); (1, "Part B", 11); (1, "Part C", 4)] 30
    = Some parts
    /\ nth_error parts 0 = Some p1 /\ nth_error parts 2 = Some p3
    /\ part_contains p1 5 /\ part_contains p3 5.
Proof. vm_compute. do 3 eexists. repeat split. Qed.

Lemma sibling_ranges_adjacent_witness :
  exists parts,
    outline_tree [(1, "Part I", 1); (1, "Part II", 11)] 20 = Some parts
    /\ exists i,
         (exists p, nth_error parts i = Some p /\ part_contains p 12)
         /\ forall j q, nth_error parts j = Some q ->
              part_contains q 12 -> j = i.
Proof.
  destruct (sibling_ranges_adjacent [(1, "Part I", 1); (1, "Part II", 11)] 20)
    as (parts & Htree & _ & _ & Hcover).
  exists parts. split; [exact Htree|].
  vm_compute in Htree. injection Htree as <-.
  apply Hcover with (first := resolve_part_at (new_part "Part I" 0) 9).
  - simpl. split; [lia|exact I].
  - reflexivity.
  - simpl. lia.
Defined.

(** ** The search loops *)

Section UpdateFirst.
Variable A : Type.
Variable test : A -> option bool.
Variable upd : A -> option A.

(** What a finished search has done: nothing when no element passes the
    test, and otherwise one element [x] became [x'], every element before
    it having failed the test. *)
Inductive searched : list A -> list A -> bool -> Prop :=
| searched_none l :
    Forall (fun y => test y = Some false) l ->
    searched l l false
| searched_one l1 x x' l2 :
    Forall (fun y => test y = Some false) l1 ->
    test x = Some true ->
    upd x = Some x' ->
    searched (l1 ++ x :: l2) (l1 ++ x' :: l2) true.

(** The same from the last element: every element after [x] failed. *)
Inductive searched_reversed : list A -> list A -> bool -> Prop :=
| searched_reversed_none l :
    Forall (fun y => test y = Some false) l ->
    searched_reversed l l false
| searched_reversed_one l1 x x' l2 :
    Forall (fun y => test y = Some false) l2 ->
    test x = Some true ->
    upd x = Some x' ->
    searched_reversed (l1 ++ x :: l2) (l1 ++ x' :: l2) true.

Lemma update_first_searched l l' found :
  update_first test upd l = Some (l', found) -> searched l l' found.
Proof.
  revert l' found. induction l as [|x rest IH]; intros l' found H.
  - injection H as <- <-. constructor. constructor.
  - cbn [update_first] in H. destruct (test x) as [[|]|] eqn:Ht;
      cbn [bind] in H; [| |discriminate].
    + destruct (upd x) as [x'|] eqn:Hu; cbn [bind] in H; [|discriminate].
      injection H as <- <-.
      apply (searched_one [] x x' rest); auto.
    + destruct (update_first test upd rest) as [[rest' f]|];
        cbn [bind] in H; [|discriminate].
      injection H as <- <-. specialize (IH rest' f eq_refl).
      inversion IH as [l Hall|l1 y y' l2 Hall Hy Hy']; subst.
      * constructor. now constructor.
      * apply (searched_one (x :: l1) y y' l2); auto.
Qed.

Lemma update_first_reversed_searched l l' found :
  update_first_reversed test upd l = Some (l', found) ->
  searched_reversed l l' found.
Proof.
  unfold update_first_reversed. intros H.
  destruct (update_first test upd (rev l)) as [[r f]|] eqn:E;
    cbn [bind] in H; [|discriminate].
  injection H as <- <-. apply update_first_searched in E.
  inversion E as [l0 Hall Hl0 |l1 x x' l2 Hall Hx Hx' Hl]; subst.
  - rewrite rev_involutive. constructor.
    apply Forall_rev in Hall. now rewrite rev_involutive in Hall.
  - assert (Hrev : l = rev l2 ++ x :: rev l1).
    { rewrite <- (rev_involutive l), <- Hl, rev_app_distr. simpl.
      now rewrite <- app_assoc. }
    rewrite Hrev, rev_app_distr. simpl. rewrite <- app_assoc. simpl.
    apply searched_reversed_one; auto. now apply Forall_rev.
Qed.

(** The search raises no error when the test and the update raise none. *)
Lemma update_first_total l :
  Forall (fun x => test x <> None /\ upd x <> None) l ->
  exists l' found, update_first test upd l = Some (l', found).
Proof.
  induction 1 as [|x rest [Ht Hu] Hrest IH]; [simpl; eauto|].
  cbn [update_first]. destruct (test x) as [[|]|]; [| |contradiction].
  - destruct (upd x) as [x'|]; [|contradiction]. simpl. eauto.
  - destruct IH as (l' & f & ->). simpl. eauto.
Qed.

Lemma update_first_reversed_total l :
  Forall (fun x => test x <> None /\ upd x <> None) l ->
  exists l' found, update_first_reversed test upd l = Some (l', found).
Proof.
  intros H. unfold update_first_reversed.
  destruct (update_first_total (rev l)) as (l' & f & ->);
    [now apply Forall_rev|].
  simpl. eauto.
Qed.

End UpdateFirst.

Arguments searched {A} test upd _ _ _.
Arguments searched_reversed {A} test upd _ _ _.
Arguments update_first_searched {A} test upd l l' found _.
Arguments update_first_reversed_searched {A} test upd l l' found _.
Arguments update_first_total {A} test upd l _.
Arguments update_first_reversed_total {A} test upd l _.

(** ** Routing one page *)

(** The ranges of the records of a part, in the order of [part_lists]. *)
Definition chapter_node_ranges (c : chapter) : list range_of :=
  chapter_range c :: map section_range (sections c).

Definition part_node_ranges (p : part) : list range_of :=
  part_range p
    :: flat_map chapter_node_ranges (Dict.values (chapters p))
    ++ map section_range (other_sections p).

Definition tree_ranges (parts : list part) : list range_of :=
  flat_map part_node_ranges parts.

(** Every record of the part has an ["end"]. *)
Definition part_ranged (p : part) : Prop :=
  Forall (fun r => snd r <> None) (part_node_ranges p).

(** One of the lists got [k] appended and the others are as they were. *)
Definition extended_one (k : list string) (ls ls' : list (list string))
  : Prop :=
  exists l1 x l2, ls = l1 ++ x :: l2 /\ ls' = l1 ++ (x ++ k) :: l2.

Lemma extended_one_app_l k a a' b :
  extended_one k a a' -> extended_one k (a ++ b) (a' ++ b).
Proof.
  intros (l1 & x & l2 & -> & ->). exists l1, x, (l2 ++ b).
  now rewrite <- !app_assoc.
Qed.

Lemma extended_one_app_r k a b b' :
  extended_one k b b' -> extended_one k (a ++ b) (a ++ b').
Proof.
  intros (l1 & x & l2 & -> & ->). exists (a ++ l1), x, l2.
  now rewrite <- !app_assoc.
Qed.

Lemma extended_one_cons k x b b' :
  extended_one k b b' -> extended_one k (x :: b) (x :: b').
Proof. apply (extended_one_app_r k [x]). Qed.

Lemma contains_total s e page_i :
  e <> None -> contains s e page_i <> None.
Proof.
  unfold contains. destruct (s <=? page_i); [|discriminate].
  destruct e; [discriminate|contradiction].
Qed.

(** A search among sections: the lists and the ranges afterwards. *)
Lemma section_search_lists page_i k secs secs' :
  searched (section_contains page_i) (section_extend k) secs secs' true
  \/ searched_reversed (section_contains page_i) (section_extend k)
       secs secs' true ->
  extended_one k (map s_knowledge secs) (map s_knowledge secs')
  /\ map section_range secs' = map section_range secs.
Proof.
  assert (Hone : forall l1 x x' l2, section_extend k x = Some x' ->
            extended_one k (map s_knowledge (l1 ++ x :: l2))
              (map s_knowledge (l1 ++ x' :: l2))
            /\ map section_range (l1 ++ x' :: l2)
               = map section_range (l1 ++ x :: l2)).
  { intros l1 x x' l2 [= <-]. rewrite !map_app. simpl. split.
    - now exists (map s_knowledge l1), (s_knowledge x), (map s_knowledge l2).
    - reflexivity. }
  intros [H|H]; inversion H; subst; now apply Hone.
Qed.

Lemma section_search_total page_i k secs :
  Forall (fun r => snd r <> None) (map section_range secs) ->
  Forall (fun x => section_contains page_i x <> None
                   /\ section_extend k x <> None) secs.
Proof.
  intros H. rewrite Forall_forall in H. apply Forall_forall. intros s Hs.
  specialize (H (section_range s) (in_map section_range secs s Hs)).
  split; [now apply contains_total|discriminate].
Qed.

Lemma route_in_chapter_total page_i k tc :
  Forall (fun r => snd r <> None) (chapter_node_ranges (snd tc)) ->
  chapter_contains page_i tc <> None
  /\ route_in_chapter page_i k tc <> None.
Proof.
  destruct tc as [t c]. unfold chapter_node_ranges. simpl. intros H.
  inversion H as [|? ? Hc Hs]; subst. split.
  - now apply contains_total.
  - destruct (update_first_total (section_contains page_i)
                (section_extend k) (sections c)) as (l' & f & ->).
    + now apply section_search_total.
    + simpl. destruct f; discriminate.
Qed.

Lemma route_in_chapter_lists page_i k t c tc' :
  route_in_chapter page_i k (t, c) = Some tc' ->
  fst tc' = t
  /\ extended_one k (chapter_lists c) (chapter_lists (snd tc'))
  /\ chapter_node_ranges (snd tc') = chapter_node_ranges c.
Proof.
  unfold route_in_chapter. intros H.
  destruct (update_first (section_contains page_i) (section_extend k)
              (sections c)) as [[secs f]|] eqn:E; cbn [bind] in H;
    [|discriminate].
  apply update_first_searched in E. destruct f; injection H as <-; simpl.
  - destruct (section_search_lists page_i k (sections c) secs) as [Hl Hr];
      [now left|].
    unfold chapter_lists, chapter_node_ranges, chapter_range. simpl.
    rewrite Hr. repeat split. now apply extended_one_cons.
  - repeat split. unfold chapter_lists. simpl.
    now exists [], (chapter_knowledge c), (map s_knowledge (sections c)).
Qed.

(** One routed page: the title, the chapter titles and every range stay,
    and exactly one list of the part receives the knowledge. *)
Lemma route_page_lists page_i k p p' :
  route_page p page_i k = Some p' ->
  p_title p' = p_title p
  /\ Dict.keys (chapters p') = Dict.keys (chapters p)
  /\ part_node_ranges p' = part_node_ranges p
  /\ extended_one k (part_lists p) (part_lists p').
Proof.
  unfold route_page. intros H.
  destruct (update_first_reversed (chapter_contains page_i)
              (route_in_chapter page_i k) (chapters p))
    as [[chs in_chapter]|] eqn:Ec; cbn [bind] in H; [|discriminate].
  apply update_first_reversed_searched in Ec.
  destruct in_chapter.
  - injection H as <-.
    inversion Ec as [|d1 [t c] tc' d2 _ _ Hroute Hd]; subst.
    apply route_in_chapter_lists in Hroute as (Ht & Hl & Hr).
    destruct tc' as [t' c']. simpl in Ht, Hl, Hr. subst t'.
    unfold part_lists, part_node_ranges, part_range, Dict.keys, Dict.values.
    cbn [set_chapters p_title p_start p_end chapters other_sections
         part_knowledge].
    rewrite <- Hd. rewrite !map_app, !flat_map_app.
    cbn [map fst snd flat_map]. rewrite Hr.
    repeat split.
    apply extended_one_cons, extended_one_app_l, extended_one_app_r.
    now apply extended_one_app_l.
  - inversion Ec as [l _ Hl|]; subst.
    destruct (update_first_reversed (section_contains page_i)
                (section_extend k) (other_sections p))
      as [[others in_other]|] eqn:Eo; cbn [bind] in H; [|discriminate].
    apply update_first_reversed_searched in Eo.
    destruct in_other; injection H as <-.
    + destruct (section_search_lists page_i k (other_sections p) others)
        as [Hl Hr]; [now right|].
      unfold part_lists, part_node_ranges, part_range. simpl. rewrite Hr.
      repeat split. now apply extended_one_cons, extended_one_app_r.
    + repeat split. unfold part_lists. simpl.
      now exists [], (part_knowledge p),
        (flat_map chapter_lists (Dict.values (chapters p))
           ++ map s_knowledge (other_sections p)).
Qed.

(** Routing raises no error on a part whose records all have an end. *)
Lemma route_page_total page_i k p :
  part_ranged p -> exists p', route_page p page_i k = Some p'.
Proof.
  unfold part_ranged, part_node_ranges. intros H.
  inversion H as [|? ? _ Hrest]; subst.
  apply Forall_app in Hrest as [Hc Ho]. apply Forall_flat_map in Hc.
  unfold route_page.
  destruct (update_first_reversed_total (chapter_contains page_i)
              (route_in_chapter page_i k) (chapters p))
    as (chs & in_chapter & ->).
  { rewrite Forall_forall in Hc. apply Forall_forall. intros tc Htc.
    apply route_in_chapter_total. apply Hc.
    unfold Dict.values. now apply in_map. }
  cbn [bind]. destruct in_chapter; [eauto|].
  destruct (update_first_reversed_total (section_contains page_i)
              (section_extend k) (other_sections p))
    as (others & in_other & ->).
  { now apply section_search_total. }
  cbn [bind]. destruct in_other; eauto.
Qed.

Lemma extended_one_concat k ls ls' :
  extended_one k ls ls' ->
  Permutation (List.concat ls') (List.concat ls ++ k).
Proof.
  intros (l1 & x & l2 & -> & ->). rewrite !concat_app. simpl.
  rewrite <- !app_assoc. apply Permutation_app_head, Permutation_app_head.
  apply Permutation_app_comm.
Qed.

Lemma sibling_ends_ranged parent_end rs :
  sibling_ends parent_end rs -> Forall (fun r => snd r <> None) rs.
Proof.
  intros H. apply Forall_forall. intros [s e] Hin.
  apply In_nth_error in Hin as [i Hi]. specialize (H i s e Hi). simpl.
  destruct (nth_error rs (S i)) as [[s' e']|]; subst; discriminate.
Qed.

Lemma part_resolved_ranged p : part_resolved p -> part_ranged p.
Proof.
  intros (e & He & Hc & Ho & Hs). unfold part_ranged, part_node_ranges.
  constructor; [simpl; rewrite He; discriminate|].
  apply Forall_app. split; [|now apply (sibling_ends_ranged e)].
  apply Forall_flat_map, Forall_forall. intros c Hin.
  destruct (Hs c Hin) as (ce & Hce & Hsec). constructor.
  - simpl. rewrite Hce. discriminate.
  - now apply (sibling_ends_ranged ce).
Qed.

(** ** The page loop *)

Section RunFacts.
Variable process_page : nat -> Z -> PageContent.
Variable total_pages : Z.

(** What a stretch of the run leaves unchanged in a part. *)
Definition same_shape (p p' : part) : Prop :=
  p_title p' = p_title p
  /\ Dict.keys (chapters p') = Dict.keys (chapters p)
  /\ part_node_ranges p' = part_node_ranges p.

Lemma same_shape_refl p : same_shape p p.
Proof. now repeat split. Qed.

Lemma same_shape_trans p q r :
  same_shape p q -> same_shape q r -> same_shape p r.
Proof.
  intros (H1 & H2 & H3) (H4 & H5 & H6). repeat split; congruence.
Qed.

Lemma same_shape_ranged p p' : same_shape p p' -> part_ranged p ->
  part_ranged p'.
Proof. intros (_ & _ & H). unfold part_ranged. now rewrite H. Qed.

Lemma page_loop_run pages :
  forall p calls routed,
    part_ranged p ->
    exists p' calls' batch,
      page_loop process_page total_pages pages p calls routed
      = Some (p', calls', routed ++ batch)
      /\ same_shape p p'
      /\ Permutation (List.concat (part_lists p'))
           (List.concat (part_lists p) ++ List.concat (map snd batch)).
Proof.
  induction pages as [|page_i rest IH]; intros p calls routed Hp.
  - exists p, calls, []. rewrite !app_nil_r.
    repeat split; auto using same_shape_refl.
  - cbn [page_loop].
    destruct (limit_pages total_pages <=? page_i).
    { exists p, calls, []. rewrite !app_nil_r.
      repeat split; auto using same_shape_refl. }
    destruct (has_content (process_page calls page_i)); cbn [negb].
    + destruct (route_page_total page_i
                  (knowledge (process_page calls page_i)) p Hp)
        as [p1 Hroute].
      rewrite Hroute. cbn [bind].
      apply route_page_lists in Hroute as (Ht & Hk & Hr & Hl).
      assert (Hshape : same_shape p p1) by now repeat split.
      destruct (IH p1 (S calls)
                  (routed ++ [(page_i, knowledge (process_page calls page_i))])
                  (same_shape_ranged _ _ Hshape Hp))
        as (p' & calls' & batch & Hloop & Hshape' & Hperm).
      exists p', calls',
        ((page_i, knowledge (process_page calls page_i)) :: batch).
      rewrite Hloop, <- app_assoc. split; [reflexivity|].
      split; [eapply same_shape_trans; eassumption|].
      rewrite Hperm. cbn [map snd List.concat].
      rewrite (extended_one_concat _ _ _ Hl). now rewrite <- app_assoc.
    + destruct (IH p (S calls) routed Hp)
        as (p' & calls' & batch & Hloop & Hshape' & Hperm).
      exists p', calls', batch. auto.
Qed.

Lemma process_part_run p st :
  part_ranged p ->
  exists p' st' batch,
    process_part process_page total_pages p st = Some (p', st')
    /\ same_shape p p'
    /\ rs_routed st' = rs_routed st ++ batch
    /\ Permutation (List.concat (part_lists p'))
         (List.concat (part_lists p) ++ List.concat (map snd batch))
    /\ (exists kb_part0,
          Dict.get (p_title p) (rs_kb st')
          = Some (dump_part p' kb_part0)
          /\ kp_chapters kb_part0 = [])
    /\ (forall t, t <> p_title p ->
          Dict.get t (rs_kb st') = Dict.get t (rs_kb st)).
Proof.
  intros Hp. unfold process_part.
  assert (He : exists e, p_end p = Some e).
  { inversion Hp as [|? ? H _]. simpl in H.
    destruct (p_end p) as [e|]; [eauto|contradiction]. }
  destruct He as [e ->]. cbn [bind].
  destruct (page_loop_run (range (p_start p)
                             (Z.min e (limit_pages total_pages - 1) + 1))
              p (rs_calls st) (rs_routed st) Hp)
    as (p' & calls' & batch & -> & Hshape & Hperm).
  cbn [bind]. rewrite DictFacts.get_set_same. cbn [bind].
  do 3 eexists. split; [reflexivity|]. cbn [rs_routed rs_kb].
  split; [exact Hshape|]. split; [reflexivity|]. split; [exact Hperm|].
  split.
  - eexists. split.
    + apply DictFacts.get_alter_same, DictFacts.get_set_same.
    + reflexivity.
  - intros t Ht. rewrite DictFacts.get_alter_other by assumption.
    now apply DictFacts.get_set_other.
Qed.

Lemma process_parts_run parts :
  forall st,
    Forall part_ranged parts ->
    exists parts' st' batch,
      process_parts process_page total_pages parts st = Some (parts', st')
      /\ Forall2 same_shape parts parts'
      /\ rs_routed st' = rs_routed st ++ batch
      /\ Permutation (List.concat (tree_lists parts'))
           (List.concat (tree_lists parts) ++ List.concat (map snd batch))
      /\ (forall t, Dict.get t (rs_kb st) <> None \/ In t (map p_title parts) ->
            Dict.get t (rs_kb st') <> None).
Proof.
  induction parts as [|p rest IH]; intros st Hall.
  - exists [], st, []. rewrite app_nil_r. repeat split; auto.
    intros t [H|[]]. exact H.
  - inversion Hall as [|? ? Hp Hrest]; subst.
    destruct (process_part_run p st Hp)
      as (p' & st1 & batch1 & Hrun & Hshape & Hrouted & Hperm & Hkb & Hkeep).
    destruct (IH st1 Hrest)
      as (rest' & st2 & batch2 & Hrun2 & Hshapes & Hrouted2 & Hperm2 & Hkb2).
    exists (p' :: rest'), st2, (batch1 ++ batch2).
    cbn [process_parts]. rewrite Hrun. cbn [bind]. rewrite Hrun2.
    cbn [bind]. split; [reflexivity|]. split; [now constructor|].
    split; [rewrite Hrouted2, Hrouted; now rewrite app_assoc|].
    split.
    + unfold tree_lists in *. cbn [flat_map]. rewrite !concat_app.
      rewrite Hperm, Hperm2, map_app, concat_app.
      rewrite <- !app_assoc. apply Permutation_app_head.
      rewrite !app_assoc. apply Permutation_app_tail.
      apply Permutation_app_comm.
    + intros t Ht. apply Hkb2.
      destruct (string_dec t (p_title p)) as [->|Hne].
      * left. destruct Hkb as (kb_part0 & -> & _). discriminate.
      * destruct Ht as [Ht|[Ht|Ht]]; [|congruence|now right].
        left. now rewrite Hkeep.
Qed.

End RunFacts.

(** The resolver leaves the fragment lists alone. *)
Lemma resolve_sections_lists secs parent_end :
  map s_knowledge (resolve_sections secs parent_end) = map s_knowledge secs.
Proof. induction secs as [|s rest IH]; simpl; [|rewrite IH]; reflexivity. Qed.

Lemma resolve_chapters_at_lists d part_end :
  flat_map chapter_lists (Dict.values (resolve_chapters_at d part_end))
  = flat_map chapter_lists (Dict.values d).
Proof.
  induction d as [|[t c] rest IH]; [reflexivity|].
  cbn [resolve_chapters_at Dict.values map snd flat_map].
  unfold Dict.values in IH. rewrite IH. unfold chapter_lists at 1. simpl.
  now rewrite resolve_sections_lists.
Qed.

Lemma resolve_at_lists parts total_pages :
  tree_lists (resolve_at parts total_pages) = tree_lists parts.
Proof.
  unfold tree_lists. induction parts as [|p rest IH]; [reflexivity|].
  cbn [resolve_at flat_map]. rewrite IH. f_equal.
  unfold part_lists. simpl.
  now rewrite resolve_chapters_at_lists, resolve_sections_lists.
Qed.

Lemma concat_all_nil (ls : list (list string)) :
  Forall (fun l => l = []) ls -> List.concat ls = [].
Proof. induction 1 as [|l ls -> _ IH]; simpl; auto. Qed.

Lemma outline_tree_no_knowledge toc total_pages :
  List.concat (tree_lists (resolve_at (build toc) total_pages)) = [].
Proof.
  rewrite resolve_at_lists. apply concat_all_nil.
  unfold tree_lists. apply Forall_flat_map. apply build_no_knowledge.
Qed.

Lemma outline_tree_ranged toc total_pages :
  Forall part_ranged (resolve_at (build toc) total_pages).
Proof.
  eapply Forall_impl; [apply part_resolved_ranged|].
  apply resolve_at_resolved.
Qed.

(** C6. A routing call on a part whose records have their ends returns
    the part with the knowledge points appended, in order, to exactly one
    of its lists and every other list unchanged.  For every outline, page
    count and sequence of page results the run up to the end of the page
    loop completes, and the knowledge points held by all the records of the
    final tree are, as a multiset, the knowledge points of all the routed
    batches. *)
Theorem routing_keeps_every_fragment :
  (forall p page_i k,
     part_ranged p ->
     exists p',
       route_page p page_i k = Some p'
       /\ extended_one k (part_lists p) (part_lists p'))
  /\ (forall process_page toc total_pages kb0,
        exists parts st,
          route_all process_page toc total_pages kb0 = Some (parts, st)
          /\ Permutation (List.concat (tree_lists parts))
               (List.concat (map snd (rs_routed st)))).
Proof.
  split.
  - intros p page_i k Hp.
    destruct (route_page_total page_i k p Hp) as [p' Hroute].
    exists p'. split; [exact Hroute|].
    now apply route_page_lists in Hroute.
  - intros process_page toc total_pages kb0. unfold route_all.
    rewrite outline_tree_at. cbn [bind].
    destruct (process_parts_run process_page total_pages
                (resolve_at (build toc) total_pages)
                {| rs_kb := kb0; rs_calls := 0; rs_routed := [] |}
                (outline_tree_ranged toc total_pages))
      as (parts & st & batch & Hrun & _ & Hrouted & Hperm & _).
    exists parts, st. split; [exact Hrun|].
    simpl in Hrouted. subst batch.
    now rewrite outline_tree_no_knowledge in Hperm.
Qed.

Definition example_part : part :=
  {| p_title := "Part I"; p_start := 0; p_end := Some 19;
     part_knowledge := [];
     chapters := [("Chapter 1", {| c_start := 0; c_end := Some 8;
                                   chapter_knowledge := [];
                                   sections := [] |});
                  ("Chapter 2", {| c_start := 9; c_end := Some 19;
                                   chapter_knowledge := [];
                                   sections := [] |})];
     other_sections := [] |}.

Lemma routing_keeps_every_fragment_witness :
  exists p',
    route_page example_part 5 ["A"] = Some p'
    /\ extended_one ["A"] (part_lists example_part) (part_lists p').
Proof.
  apply (proj1 routing_keeps_every_fragment).
  unfold part_ranged. simpl. repeat constructor; discriminate.
Defined.

(** ** Ranges that end before they start *)

(** C3, as amended. For every outline the resolver returns a tree whose
    ends are those of the sibling rule, also where that end is below the
    start: nothing is clamped and nothing is recorded.  This stops nothing:
    every record has an end, a record whose end is below its start contains
    no page, and routing any page into a part of the tree returns a
    result. *)
Theorem degenerate_ranges_kept (toc : list toc_entry) (total_pages : Z) :
  exists parts,
    outline_tree toc total_pages = Some parts
    /\ sibling_ends (total_pages - 1) (map part_range parts)
    /\ Forall part_resolved parts
    /\ Forall (fun r =>
                 exists e,
                   snd r = Some e
                   /\ (e < fst r ->
                       forall page_i,
                         contains (fst r) (snd r) page_i = Some false))
         (tree_ranges parts)
    /\ forall p, In p parts ->
         forall page_i k, exists p', route_page p page_i k = Some p'.
Proof.
  exists (resolve_at (build toc) total_pages).
  split; [apply outline_tree_at|].
  split; [apply resolve_at_ends|].
  split; [apply resolve_at_resolved|].
  pose proof (outline_tree_ranged toc total_pages) as Hranged.
  split.
  - unfold tree_ranges. apply Forall_flat_map.
    eapply Forall_impl; [|exact Hranged].
    intros p Hp. eapply Forall_impl; [|exact Hp].
    intros [s [e|]] Hr; [|now contradiction Hr].
    exists e. split; [reflexivity|]. simpl. intros Hlt page_i.
    unfold contains. destruct (Z.leb_spec s page_i); [|reflexivity].
    f_equal. apply Z.leb_gt. lia.
  - intros p Hin page_i k. apply route_page_total.
    rewrite Forall_forall in Hranged. now apply Hranged.
Qed.

(** C3 as stated fails: two chapters on the same page leave the first with
    an end below its start (start 4, end 3). *)
Lemma shared_page_not_clamped :
  ~ (forall toc total_pages parts,
       outline_tree toc total_pages = Some parts ->
       Forall (fun r => exists e, snd r = Some e /\ fst r <= e)
         (tree_ranges parts)).
Proof.
  intros H.
  specialize (H [(1, "Part I", 1); (2, "Chapter 1", 5); (2, "Chapter 2", 5)]
                20).
  destruct (outline_tree
              [(1, "Part I", 1); (2, "Chapter 1", 5); (2, "Chapter 2", 5)] 20)
    as [parts|] eqn:E; vm_compute in E; [|discriminate].
  injection E as <-. specialize (H _ eq_refl).
  apply Forall_inv_tail, Forall_inv in H. destruct H as (e & He & Hle).
  simpl in He, Hle. injection He as <-. lia.
Qed.

(** ** Outlines without a Part *)

Definition no_part_entry (toc : list toc_entry) : Prop :=
  forall level title page_num,
    In (level, title, page_num) toc -> is_part_entry level title = false.

Lemma build_loop_no_part toc :
  no_part_entry toc -> build_loop toc = ([], None).
Proof.
  unfold build_loop. induction toc as [|[[level title] page_num] rest IH];
    intros H; [reflexivity|].
  cbn [fold_left]. unfold build_step at 2.
  rewrite (H level title page_num) by now left.
  apply IH. intros l t n Hin. apply (H l t n). now right.
Qed.

(** C4, as amended. The empty outline is replaced by one entry, from which
    the builder makes exactly one Part, "Part I (Entire PDF)", with
    start 0, and the resolver gives it the whole document, [0,
    total_pages - 1].  A non-empty outline with no entry classified as Part
    is not replaced: every entry of it is ignored and the tree has no
    Part. *)
Theorem fallback_part_only_for_empty_outline :
  build [] = [new_part "Part I (Entire PDF)" 0]
  /\ (forall total_pages,
        option_map (map part_range) (outline_tree [] total_pages)
        = Some [(0, Some (total_pages - 1))])
  /\ (forall toc, toc <> [] -> no_part_entry toc -> build toc = []).
Proof.
  split; [reflexivity|]. split; [reflexivity|].
  intros toc Hne Hno. unfold build.
  destruct toc as [|e rest]; [contradiction|]. cbn [toc_or_fallback].
  now rewrite build_loop_no_part.
Qed.

Lemma fallback_part_only_for_empty_outline_witness :
  build [(2, "Chapter 1", 1); (3, "Methods", 2)] = [].
Proof.
  apply (proj2 (proj2 fallback_part_only_for_empty_outline)).
  - discriminate.
  - intros level title page_num [H|[H|[]]]; injection H as <- <- <-;
      reflexivity.
Defined.

(** C4 as stated fails: an outline with a single chapter entry has no Part
    entry, and the builder makes no Part from it. *)
Lemma chapter_only_outline_has_no_part :
  ~ (forall toc, no_part_entry toc ->
       exists p, build toc = [p] /\ p_start p = 0).
Proof.
  intros H. destruct (H [(2, "Chapter 1", 1)]) as (p & Hp & _).
  - intros level title page_num [H0|[]]. injection H0 as <- <- <-.
    reflexivity.
  - discriminate.
Qed.

(** ** Which sibling takes a page that two of them contain *)

(** The sections of each chapter of a part: title, range and knowledge. *)
Definition sections_view (secs : list section)
  : list (string * range_of * list string) :=
  map (fun s => (s_title s, section_range s, s_knowledge s)) secs.

Definition chapters_view (p : part)
  : list (string * list (string * range_of * list string)) :=
  map (fun tc => (fst tc, sections_view (sections (snd tc)))) (chapters p).

Definition overlap_toc : list toc_entry :=
  [(1, "Part I", 1); (2, "Chapter 1", 1);
   (3, "A", 1); (3, "B", 10); (3, "C", 3)].

(** C5, at the failing input. Sections A, B, C of Chapter 1 start on pages
    1, 10 and 3 of 20, so A has the range [0,8] and C the range [2,19]; the
    knowledge of page index 5, which both contain, goes to A, the earlier
    one. *)
Theorem chapter_sections_searched_forward :
  exists p p',
    outline_tree overlap_toc 20 = Some [p]
    /\ chapters_view p
       = [("Chapter 1", [("A", (0, Some 8), []);
                         ("B", (9, Some 1), []);
                         ("C", (2, Some 19), [])])]
    /\ route_page p 5 ["x"] = Some p'
    /\ chapters_view p'
       = [("Chapter 1", [("A", (0, Some 8), ["x"]);
                         ("B", (9, Some 1), []);
                         ("C", (2, Some 19), [])])].
Proof. vm_compute. do 2 eexists. repeat split. Qed.

(** The same three sections directly under the Part are searched from the
    last one: the knowledge of page index 5 goes to C. *)
Lemma other_sections_searched_backward :
  exists p p',
    outline_tree [(1, "Part I", 1); (3, "A", 1); (3, "B", 10); (3, "C", 3)]
      20 = Some [p]
    /\ route_page p 5 ["x"] = Some p'
    /\ sections_view (other_sections p')
       = [("A", (0, Some 8), []);
          ("B", (9, Some 1), []);
          ("C", (2, Some 19), ["x"])].
Proof. vm_compute. do 2 eexists. repeat split. Qed.

(** Two chapters that both contain the page: the later one takes it.  With
    chapters on pages 1, 10 and 3 of 20, page index 5 is in Chapter 1
    [0,8] and in Chapter 3 [2,19]. *)
Lemma chapters_searched_backward :
  exists p p',
    outline_tree [(1, "Part I", 1); (2, "Chapter 1", 1);
                  (2, "Chapter 2", 10); (2, "Chapter 3", 3)] 20 = Some [p]
    /\ route_page p 5 ["x"] = Some p'
    /\ map (fun tc => (fst tc, chapter_range (snd tc),
                       chapter_knowledge (snd tc))) (chapters p')
       = [("Chapter 1", (0, Some 8), []);
          ("Chapter 2", (9, Some 1), []);
          ("Chapter 3", (2, Some 19), ["x"])].
Proof. vm_compute. do 2 eexists. repeat split. Qed.

(** ** The combined lists and the exported units *)

Lemma combine_knowledge_concat secs :
  forall own,
    combine_knowledge own secs
    = own ++ List.concat (map ks_knowledge secs).
Proof.
  unfold combine_knowledge.
  induction secs as [|sec rest IH]; intros own; simpl.
  - now rewrite app_nil_r.
  - now rewrite IH, <- app_assoc.
Qed.

Definition set_kp_chapters (kb_part0 : kb_part) (d : Dict.t kb_chapter)
  : kb_part :=
  {| kp_start := kp_start kb_part0; kp_end := kp_end kb_part0;
     kp_part_knowledge := kp_part_knowledge kb_part0;
     kp_chapters := d;
     kp_other_sections := kp_other_sections kb_part0 |}.

(** The units of the chapter stored under [chap_t]. *)
Definition chapter_units (p_title0 : string) (d : Dict.t kb_chapter)
    (chap_t : string) : list export_unit :=
  match Dict.get chap_t d with
  | Some chap_data =>
      overview_unit [p_title0; chap_t] chap_t
        (kc_chapter_knowledge chap_data
           ++ List.concat (map ks_knowledge (kc_sections chap_data)))
        :: export_sections [p_title0; chap_t] 1 (kc_sections chap_data)
  | None => []
  end.

Lemma export_chapters_units p_title0 d chapter_titles :
  incl chapter_titles (Dict.keys d) ->
  export_chapters p_title0 chapter_titles d
  = Some (flat_map (chapter_units p_title0 d) chapter_titles).
Proof.
  induction chapter_titles as [|chap_t rest IH]; intros Hincl;
    [reflexivity|].
  cbn [export_chapters flat_map]. unfold chapter_units at 1.
  destruct (DictFacts.get_in_keys _ chap_t d) as [chap_data ->].
  { apply Hincl. now left. }
  cbn [bind]. rewrite IH.
  - cbn [bind]. unfold export_chapter, combined_chap.
    now rewrite combine_knowledge_concat.
  - intros t Ht. apply Hincl. now right.
Qed.

(** On a record of the knowledge base: the list a Part is summarised from
    is its own knowledge followed by the knowledge of its other sections,
    whatever its chapters hold; the list a Chapter is summarised from is
    its own knowledge followed by the knowledge of its sections; and these
    are the lists of the overview units that the export of the record
    produces, for the Part and for each of its chapters in turn. *)
Lemma record_combined_lists (p_title0 : string) (kb_part0 : kb_part) :
  part_combined kb_part0
  = kp_part_knowledge kb_part0
      ++ List.concat (map ks_knowledge (kp_other_sections kb_part0))
  /\ (forall d, part_combined (set_kp_chapters kb_part0 d)
                = part_combined kb_part0)
  /\ (forall chap_data,
        combined_chap chap_data
        = kc_chapter_knowledge chap_data
            ++ List.concat (map ks_knowledge (kc_sections chap_data)))
  /\ export_part p_title0 kb_part0
     = Some (overview_unit [p_title0] p_title0
               (kp_part_knowledge kb_part0
                  ++ List.concat
                       (map ks_knowledge (kp_other_sections kb_part0)))
               :: export_sections [p_title0] 1 (kp_other_sections kb_part0)
               ++ flat_map (chapter_units p_title0 (kp_chapters kb_part0))
                    (Dict.keys (kp_chapters kb_part0))).
Proof.
  split; [apply combine_knowledge_concat|].
  split; [reflexivity|].
  split; [intros; apply combine_knowledge_concat|].
  unfold export_part.
  rewrite export_chapters_units by apply incl_refl.
  cbn [bind]. unfold part_combined.
  now rewrite combine_knowledge_concat.
Qed.

(** ** The numbering of the section files *)

(** The prefixes of the units are 01, 02, ... without a gap. *)
Definition numbered_from_one (units : list export_unit) : Prop :=
  map eu_prefix units = map format_02d (seq 1 (List.length units)).

Definition has_knowledge (isec : nat * kb_section) : bool :=
  match ks_knowledge (snd isec) with
  | [] => false
  | _ :: _ => true
  end.

Lemma export_sections_positions folder secs :
  forall idx,
    export_sections folder idx secs
    = map (fun isec => section_unit folder (fst isec) (snd isec))
        (filter has_knowledge (combine (seq idx (List.length secs)) secs)).
Proof.
  induction secs as [|sec rest IH]; intros idx; [reflexivity|].
  cbn [export_sections List.length seq combine filter].
  unfold has_knowledge at 1. cbn [snd].
  destruct (ks_knowledge sec); cbn [map fst snd]; now rewrite IH.
Qed.

(** C8, as amended. In the files of the sections of a chapter, and of the
    other sections of a part, a section with no knowledge produces nothing
    and a section with knowledge is numbered by its position, counted from
    1, among all the sections of the list, those without knowledge
    included; and a unit with an empty list writes no file. *)
Theorem section_numbering_by_position :
  (forall folder secs,
     export_sections folder 1 secs
     = map (fun isec => section_unit folder (fst isec) (snd isec))
         (filter has_knowledge (combine (seq 1 (List.length secs)) secs)))
  /\ (forall completion n folder prefix title analysis_title rest,
        write_units completion n
          ({| eu_folder := folder; eu_prefix := prefix; eu_title := title;
              eu_analysis_title := analysis_title; eu_points := [] |}
             :: rest)
        = write_units completion n rest).
Proof.
  split.
  - intros folder secs. apply export_sections_positions.
  - intros. cbn [write_units eu_points requests analyze_knowledge save_md
                 blank app]. now rewrite Nat.add_0_r.
Qed.

(** C8 as stated fails: after a section without knowledge the next one
    keeps the number 02. *)
Lemma numbering_keeps_gap :
  ~ (forall folder secs, numbered_from_one (export_sections folder 1 secs)).
Proof.
  intros H.
  specialize (H ["Part I"]
                [{| ks_title := "Intro"; ks_start := 0; ks_end := Some 0;
                    ks_knowledge := [] |};
                 {| ks_title := "Methods"; ks_start := 1; ks_end := Some 1;
                    ks_knowledge := ["k"] |}]).
  vm_compute in H. discriminate.
Qed.

(** Such a list arises in a run: two sections under a part, the page of the
    first without content. *)
Definition gap_page (n : nat) (page_i : Z) : PageContent :=
  {| has_content := negb (page_i =? 0); knowledge := ["k"] |}.

Lemma numbering_gap_in_a_run :
  option_map
    (fun out => map (fun u => (eu_prefix u, eu_title u)) (out_units out))
    (main gap_page [(1, "Part I", 1); (2, "Intro", 1); (2, "Methods", 2)]
       2 [])
  = Some [("00", "README"); ("02", "Methods")].
Proof. reflexivity. Qed.

(** ** Two chapter entries with one title *)

(** The section an outline entry becomes. *)
Definition entry_section (e : toc_entry) : section :=
  let '(level, title, page_num) := e in
  new_section title level (page_num - 1).

Lemma build_loop_app l1 l2 :
  build_loop (l1 ++ l2) = fold_left build_step l2 (build_loop l1).
Proof. apply fold_left_app. Qed.

Lemma build_step_chapter parts cp t page_num :
  is_chapter_entry 2 t = true ->
  build_step (parts, Some cp) (2, t, page_num)
  = (parts,
     Some (set_chapters cp
             (Dict.set t (new_chapter (page_num - 1)) (chapters cp)))).
Proof. intros H. unfold build_step. now rewrite H. Qed.

(** Entries that open no Part leave the closed parts as they are and only
    add chapter titles to the current part. *)
Lemma fold_no_part parts l :
  no_part_entry l ->
  forall cp,
    exists cp',
      fold_left build_step l (parts, Some cp) = (parts, Some cp')
      /\ incl (Dict.keys (chapters cp)) (Dict.keys (chapters cp')).
Proof.
  induction l as [|[[level title] page_num] rest IH]; intros Hno cp.
  - exists cp. split; [reflexivity|apply incl_refl].
  - assert (Hrest : no_part_entry rest).
    { intros l0 t0 n0 Hin. apply (Hno l0 t0 n0). now right. }
    cbn [fold_left]. unfold build_step at 2.
    rewrite (Hno level title page_num) by now left.
    destruct (is_chapter_entry level title).
    + destruct (IH Hrest (set_chapters cp
                   (Dict.set title (new_chapter (page_num - 1))
                      (chapters cp)))) as (cp' & -> & Hincl).
      exists cp'. split; [reflexivity|].
      intros k Hk. apply Hincl. simpl. now apply DictFacts.keys_set_incl.
    + destruct (last_opt (Dict.keys (chapters cp))) as [k|].
      * destruct (IH Hrest (set_chapters cp
                     (Dict.alter
                        (fun c => set_sections c
                           (sections c
                              ++ [new_section title level (page_num - 1)]))
                        k (chapters cp)))) as (cp' & -> & Hincl).
        exists cp'. split; [reflexivity|].
        intros k0 Hk0. apply Hincl. simpl.
        now rewrite DictFacts.keys_alter.
      * destruct (IH Hrest (set_other_sections cp
                     (other_sections cp
                        ++ [new_section title level (page_num - 1)])))
          as (cp' & -> & Hincl).
        exists cp'. split; [reflexivity|exact Hincl].
Qed.

(** After the chapter titled [t] was stored, entries that neither open a
    Part nor declare [t] again keep its start, and its sections are the
    ones it had followed by sections made from those entries. *)
Lemma fold_keeps_chapter parts t l :
  no_part_entry l ->
  (forall level page_num,
     In (level, t, page_num) l -> is_chapter_entry level t = false) ->
  forall cp c,
    Dict.get t (chapters cp) = Some c ->
    exists cp' c',
      fold_left build_step l (parts, Some cp) = (parts, Some cp')
      /\ Dict.get t (chapters cp') = Some c'
      /\ c_start c' = c_start c
      /\ incl (sections c') (sections c ++ map entry_section l).
Proof.
  induction l as [|[[level title] page_num] rest IH]; intros Hno Ht cp c Hc.
  - exists cp, c. repeat split; auto. rewrite app_nil_r. apply incl_refl.
  - assert (Hrest : no_part_entry rest).
    { intros l0 t0 n0 Hin. apply (Hno l0 t0 n0). now right. }
    assert (Ht' : forall level0 page_num0,
               In (level0, t, page_num0) rest ->
               is_chapter_entry level0 t = false).
    { intros l0 n0 Hin. apply (Ht l0 n0). now right. }
    cbn [fold_left]. unfold build_step at 2.
    rewrite (Hno level title page_num) by now left.
    destruct (is_chapter_entry level title) eqn:Echap.
    + assert (Hne : t <> title).
      { intros <-. rewrite (Ht level page_num) in Echap by now left.
        discriminate. }
      destruct (IH Hrest Ht'
                  (set_chapters cp
                     (Dict.set title (new_chapter (page_num - 1))
                        (chapters cp))) c)
        as (cp' & c' & -> & Hget & Hstart & Hsecs).
      { simpl. now rewrite DictFacts.get_set_other. }
      exists cp', c'. repeat split; auto.
      intros s Hs. apply Hsecs in Hs. apply in_app_or in Hs as [Hs|Hs];
        apply in_or_app; [now left|right; now right].
    + destruct (last_opt (Dict.keys (chapters cp))) as [k|].
      * destruct (string_dec t k) as [<-|Hne].
        -- destruct (IH Hrest Ht'
                       (set_chapters cp
                          (Dict.alter
                             (fun c0 => set_sections c0
                                (sections c0
                                   ++ [new_section title level
                                         (page_num - 1)]))
                             t (chapters cp)))
                       (set_sections c
                          (sections c
                             ++ [new_section title level (page_num - 1)])))
             as (cp' & c' & -> & Hget & Hstart & Hsecs).
           { simpl. now rewrite (DictFacts.get_alter_same _ _ _ c). }
           exists cp', c'. repeat split; auto.
           intros s Hs. apply Hsecs in Hs. simpl in Hs.
           rewrite <- app_assoc in Hs. exact Hs.
        -- destruct (IH Hrest Ht'
                       (set_chapters cp
                          (Dict.alter
                             (fun c0 => set_sections c0
                                (sections c0
                                   ++ [new_section title level
                                         (page_num - 1)]))
                             k (chapters cp))) c)
             as (cp' & c' & -> & Hget & Hstart & Hsecs).
           { simpl. now rewrite DictFacts.get_alter_other. }
           exists cp', c'. repeat split; auto.
           intros s Hs. apply Hsecs in Hs.
           apply in_app_or in Hs as [Hs|Hs];
             apply in_or_app; [now left|right; now right].
      * destruct (IH Hrest Ht'
                    (set_other_sections cp
                       (other_sections cp
                          ++ [new_section title level (page_num - 1)])) c Hc)
          as (cp' & c' & -> & Hget & Hstart & Hsecs).
        exists cp', c'. repeat split; auto.
        intros s Hs. apply Hsecs in Hs.
        apply in_app_or in Hs as [Hs|Hs];
          apply in_or_app; [now left|right; now right].
Qed.

(** The closed parts are only ever added to at the end. *)
Lemma fold_keeps_parts l :
  forall parts current_part,
    exists more current_part',
      fold_left build_step l (parts, current_part)
      = (parts ++ more, current_part').
Proof.
  induction l as [|[[level title] page_num] rest IH];
    intros parts current_part.
  - exists [], current_part. now rewrite app_nil_r.
  - cbn [fold_left]. unfold build_step at 2.
    destruct (is_part_entry level title).
    + destruct current_part as [cp|].
      * destruct (IH (parts ++ [cp]) (Some (new_part title (page_num - 1))))
          as (more & cur & ->).
        exists (cp :: more), cur. now rewrite <- app_assoc.
      * apply IH.
    + destruct current_part as [cp|]; [|apply IH].
      destruct (is_chapter_entry level title); [apply IH|].
      destruct (last_opt (Dict.keys (chapters cp))); apply IH.
Qed.

(** The next Part entry, if there is one, comes first in [l]. *)
Definition starts_next_part (l : list toc_entry) : Prop :=
  match l with
  | [] => True
  | (level, title, _) :: _ => is_part_entry level title = true
  end.

(** C10. Let two chapter entries with the same title [t] lie in one Part
    of the outline, the later one being the last entry of that Part to
    declare [t]: [pre] ends inside the Part, [mid] and [post] are entries of
    the Part, and [next] is the rest of the outline from the next Part
    entry on.  The Part of the built tree has exactly one chapter under the
    title [t]; its start is that of the later entry, whatever the page of
    the earlier one was, and each of its sections was made from an entry
    that comes after the later entry: the sections attached to the earlier
    chapter are gone. *)
Theorem later_chapter_replaces_earlier
    (pre mid post next : list toc_entry) (t : string) (page1 page2 : Z)
    (parts : list part) (cp0 : part) :
  is_chapter_entry 2 t = true ->
  build_loop pre = (parts, Some cp0) ->
  no_part_entry (mid ++ post) ->
  (forall level page_num,
     In (level, t, page_num) post -> is_chapter_entry level t = false) ->
  starts_next_part next ->
  exists cp c more,
    build (pre ++ (2, t, page1) :: mid ++ (2, t, page2) :: post ++ next)
    = parts ++ cp :: more
    /\ count_occ string_dec (Dict.keys (chapters cp)) t = 1%nat
    /\ Dict.get t (chapters cp) = Some c
    /\ c_start c = page2 - 1
    /\ incl (sections c) (map entry_section post).
Proof.
  intros Hchap Hpre Hno Hpost Hnext.
  assert (Hmid : no_part_entry mid).
  { intros l0 t0 n0 Hin. apply (Hno l0 t0 n0). apply in_or_app. now left. }
  assert (Hpost' : no_part_entry post).
  { intros l0 t0 n0 Hin. apply (Hno l0 t0 n0). apply in_or_app. now right. }
  set (toc := pre ++ (2, t, page1) :: mid ++ (2, t, page2) :: post ++ next).
  assert (Htoc : toc
                 = (pre ++ (2, t, page1) :: mid ++ (2, t, page2) :: post)
                     ++ next).
  { subst toc. rewrite <- !app_assoc. cbn [app]. rewrite <- !app_assoc.
    reflexivity. }
  assert (Hloop : exists cp c,
            build_loop (pre ++ (2, t, page1) :: mid ++ (2, t, page2) :: post)
            = (parts, Some cp)
            /\ Dict.get t (chapters cp) = Some c
            /\ c_start c = page2 - 1
            /\ incl (sections c) (map entry_section post)).
  { rewrite build_loop_app, Hpre. cbn [fold_left].
    rewrite build_step_chapter by assumption.
    rewrite fold_left_app.
    destruct (fold_no_part parts mid Hmid
                (set_chapters cp0
                   (Dict.set t (new_chapter (page1 - 1)) (chapters cp0))))
      as (cp1 & -> & _).
    cbn [fold_left]. rewrite build_step_chapter by assumption.
    destruct (fold_keeps_chapter parts t post Hpost' Hpost
                (set_chapters cp1
                   (Dict.set t (new_chapter (page2 - 1)) (chapters cp1)))
                (new_chapter (page2 - 1)))
      as (cp & c & -> & Hget & Hstart & Hsecs).
    { simpl. apply DictFacts.get_set_same. }
    exists cp, c. repeat split; auto. }
  destruct Hloop as (cp & c & Hloop & Hget & Hstart & Hsecs).
  assert (Hbuild : exists more, build toc = parts ++ cp :: more).
  { unfold build. replace (toc_or_fallback toc) with toc
      by (subst toc; now destruct pre).
    rewrite Htoc, build_loop_app, Hloop.
    destruct next as [|[[level title] page_num] rest].
    - exists []. reflexivity.
    - cbn [fold_left]. unfold build_step at 2.
      simpl in Hnext. rewrite Hnext.
      destruct (fold_keeps_parts rest (parts ++ [cp])
                  (Some (new_part title (page_num - 1))))
        as (more & cur & ->).
      unfold close_parts. cbn [fst snd].
      destruct cur as [cp'|]; rewrite <- !app_assoc; cbn [app]; eauto. }
  destruct Hbuild as [more Hbuild].
  exists cp, c, more. repeat split; auto.
  pose proof (build_unique_chapters toc) as Huniq.
  rewrite Hbuild in Huniq. apply Forall_app in Huniq as [_ Huniq].
  apply Forall_inv in Huniq. unfold unique_chapters in Huniq.
  apply DictFacts.get_In in Hget.
  assert (Hin : In t (Dict.keys (chapters cp))).
  { change t with (fst (t, c)). now apply in_map. }
  apply (count_occ_In string_dec) in Hin.
  pose proof (proj1 (NoDup_count_occ string_dec _) Huniq t). lia.
Qed.

Lemma later_chapter_replaces_earlier_witness :
  exists cp c more,
    build ([(1, "Part I", 1)] ++ (2, "Chapter 1", 2) :: [(3, "A", 3)]
             ++ (2, "Chapter 1", 5) :: [(3, "B", 6)]
             ++ [(1, "Part II", 9); (2, "Chapter 1", 9)])
    = [] ++ cp :: more
    /\ count_occ string_dec (Dict.keys (chapters cp)) "Chapter 1" = 1%nat
    /\ Dict.get "Chapter 1" (chapters cp) = Some c
    /\ c_start c = 5 - 1
    /\ incl (sections c) (map entry_section [(3, "B", 6)]).
Proof.
  apply (later_chapter_replaces_earlier [(1, "Part I", 1)] [(3, "A", 3)]
           [(3, "B", 6)] [(1, "Part II", 9); (2, "Chapter 1", 9)]
           "Chapter 1" 2 5 [] (new_part "Part I" 0)).
  - reflexivity.
  - reflexivity.
  - intros level title page_num [H|[H|[]]]; injection H as <- <- <-;
      reflexivity.
  - intros level page_num [H|[]]. discriminate.
  - reflexivity.
Defined.

(** The tree of that outline: one chapter, starting on page index 4, with
    the section B only. *)
Lemma duplicate_chapter_example :
  map (fun p => (p_title p,
                 map (fun tc => (fst tc, c_start (snd tc),
                                 map s_title (sections (snd tc))))
                   (chapters p)))
    (build [(1, "Part I", 1); (2, "Chapter 1", 2); (3, "A", 3);
            (2, "Chapter 1", 5); (3, "B", 6)])
  = [("Part I", [("Chapter 1", 4, ["B"])])].
Proof. reflexivity. Qed.

(** ** From the tree to the exported units *)

Lemma export_part_total p_title0 kb_part0 :
  export_part p_title0 kb_part0 <> None.
Proof.
  unfold export_part.
  rewrite export_chapters_units by apply incl_refl. discriminate.
Qed.

Lemma export_total parts kb :
  (forall t, In t (map p_title parts) -> Dict.get t kb <> None) ->
  exists units, export parts kb = Some units.
Proof.
  induction parts as [|p rest IH]; intros Hkb; [simpl; eauto|].
  cbn [export].
  destruct (Dict.get (p_title p) kb) as [kb_part0|] eqn:E.
  - cbn [bind].
    destruct (export_part (p_title p) kb_part0) as [units|] eqn:Ep;
      [|now apply export_part_total in Ep].
    cbn [bind]. destruct IH as [units' ->].
    + intros t Ht. apply Hkb. now right.
    + simpl. eauto.
  - exfalso. apply (Hkb (p_title p)); [now left|exact E].
Qed.

Lemma Forall2_same_shape_titles parts parts' :
  Forall2 same_shape parts parts' -> map p_title parts' = map p_title parts.
Proof.
  induction 1 as [|p p' rest rest' (Ht & _) _ IH]; simpl; congruence.
Qed.

(** X13. With a page oracle that answers every call, nothing in the tree,
    the ranges, the routing or the export stops [main]: it returns a result
    for every outline, page count and initial knowledge base. *)
Lemma main_total process_page toc total_pages kb0 :
  exists out, main process_page toc total_pages kb0 = Some out.
Proof.
  unfold main, route_all. rewrite outline_tree_at. cbn [bind].
  destruct (process_parts_run process_page total_pages
              (resolve_at (build toc) total_pages)
              {| rs_kb := kb0; rs_calls := 0; rs_routed := [] |}
              (outline_tree_ranged toc total_pages))
    as (parts & st & batch & -> & Hshape & _ & _ & Hkb).
  cbn [bind]. destruct (export_total parts (rs_kb st)) as [units ->].
  - intros t Ht. apply Hkb. right.
    now rewrite <- (Forall2_same_shape_titles _ _ Hshape).
  - simpl. eauto.
Qed.

Lemma fold_append_map {A B : Type} (f : A -> B) (l : list A) :
  forall acc, fold_left (fun acc0 x => acc0 ++ [f x]) l acc = acc ++ map f l.
Proof.
  induction l as [|x rest IH]; intros acc; simpl.
  - now rewrite app_nil_r.
  - now rewrite IH, <- app_assoc.
Qed.

Lemma set_absent {V : Type} k (v : V) d :
  ~ In k (Dict.keys d) -> Dict.set k v d = d ++ [(k, v)].
Proof.
  induction d as [|[k' v'] d IH]; simpl; [reflexivity|].
  intros H. destruct (String.eqb_spec k k') as [->|Hne].
  - exfalso. apply H. now left.
  - now rewrite IH by tauto.
Qed.

Lemma fold_set_map {V W : Type} (g : V -> W) (l : Dict.t V) :
  forall d0 : Dict.t W,
    NoDup (Dict.keys d0 ++ Dict.keys l) ->
    fold_left (fun d tc => Dict.set (fst tc) (g (snd tc)) d) l d0
    = d0 ++ map (fun tc => (fst tc, g (snd tc))) l.
Proof.
  induction l as [|[k v] rest IH]; intros d0 Hnd; simpl.
  - now rewrite app_nil_r.
  - simpl in Hnd. rewrite set_absent.
    + rewrite IH.
      * now rewrite <- app_assoc.
      * rewrite DictFacts.keys_app. simpl. now rewrite <- app_assoc.
    + intros Hin. apply NoDup_remove_2 in Hnd. apply Hnd.
      apply in_or_app. now left.
Qed.

(** The units of a part, read from the tree. *)
Definition tree_chapter_units (p_title0 : string) (tc : string * chapter)
  : list export_unit :=
  overview_unit [p_title0; fst tc] (fst tc)
    (chapter_knowledge (snd tc)
       ++ List.concat (map s_knowledge (sections (snd tc))))
    :: export_sections [p_title0; fst tc] 1
         (map dump_section (sections (snd tc))).

Definition tree_part_units (p : part) : list export_unit :=
  overview_unit [p_title p] (p_title p)
    (part_knowledge p
       ++ List.concat (map s_knowledge (other_sections p)))
    :: export_sections [p_title p] 1 (map dump_section (other_sections p))
    ++ flat_map (tree_chapter_units (p_title p)) (chapters p).

Lemma dump_sections_knowledge secs :
  map ks_knowledge (map dump_section secs) = map s_knowledge secs.
Proof. rewrite map_map. reflexivity. Qed.

Lemma export_part_dump p kb_part0 :
  unique_chapters p ->
  kp_chapters kb_part0 = [] ->
  export_part (p_title p) (dump_part p kb_part0) = Some (tree_part_units p).
Proof.
  intros Huniq Hempty. unfold export_part.
  rewrite export_chapters_units by apply incl_refl. cbn [bind].
  unfold part_combined. rewrite combine_knowledge_concat.
  unfold dump_part.
  cbn [kp_part_knowledge kp_other_sections kp_chapters].
  rewrite Hempty, (fold_append_map dump_section), fold_set_map
    by exact Huniq.
  cbn [app]. rewrite dump_sections_knowledge.
  unfold tree_part_units. do 3 f_equal.
  set (d := map (fun tc => (fst tc, dump_chapter (snd tc))) (chapters p)).
  assert (Hkeys : Dict.keys d = Dict.keys (chapters p)).
  { subst d. unfold Dict.keys. rewrite map_map. reflexivity. }
  rewrite !flat_map_concat_map. f_equal.
  rewrite Hkeys. unfold Dict.keys. rewrite map_map.
  apply map_ext_in. intros [t c] Hin. cbn [fst].
  unfold chapter_units, tree_chapter_units.
  rewrite (DictFacts.In_get _ t (dump_chapter c) d).
  - unfold dump_chapter. cbn [kc_chapter_knowledge kc_sections fst snd].
    rewrite (fold_append_map dump_section). cbn [app].
    now rewrite dump_sections_knowledge.
  - now rewrite Hkeys.
  - subst d. apply (in_map (fun tc => (fst tc, dump_chapter (snd tc)))
                      (chapters p) (t, c) Hin).
Qed.

Section DumpFacts.
Variable process_page : nat -> Z -> PageContent.
Variable total_pages : Z.

(** When the titles of the parts differ, the knowledge base holds, under
    each title, the copy of that part as the page loop left it. *)
Lemma process_parts_dump parts :
  forall st,
    Forall part_ranged parts ->
    NoDup (map p_title parts) ->
    exists parts' st',
      process_parts process_page total_pages parts st = Some (parts', st')
      /\ Forall (fun p' =>
                   exists kb_part0,
                     Dict.get (p_title p') (rs_kb st')
                     = Some (dump_part p' kb_part0)
                     /\ kp_chapters kb_part0 = [])
           parts'
      /\ (forall t, ~ In t (map p_title parts) ->
            Dict.get t (rs_kb st') = Dict.get t (rs_kb st)).
Proof.
  induction parts as [|p rest IH]; intros st Hall Hnd.
  - exists [], st. repeat split; auto.
  - inversion Hall as [|? ? Hp Hrest]; subst.
    inversion Hnd as [|? ? Hout Hnd']; subst.
    destruct (process_part_run process_page total_pages p st Hp)
      as (p' & st1 & batch1 & Hrun & (Ht & _) & _ & _ & Hkb & Hkeep).
    destruct (IH st1 Hrest Hnd') as (rest' & st2 & Hrun2 & Hdump & Hkeep2).
    exists (p' :: rest'), st2. cbn [process_parts].
    rewrite Hrun. cbn [bind]. rewrite Hrun2. cbn [bind].
    split; [reflexivity|]. split.
    + constructor; [|exact Hdump].
      destruct Hkb as (kb_part0 & Hget & Hempty). exists kb_part0.
      split; [|exact Hempty]. rewrite Ht, Hkeep2; assumption.
    + intros t Hnotin. rewrite Hkeep2, Hkeep; auto.
      * intros ->. apply Hnotin. now left.
      * intros Hin. apply Hnotin. now right.
Qed.

End DumpFacts.

Lemma export_dumped parts kb :
  Forall unique_chapters parts ->
  Forall (fun p' =>
            exists kb_part0,
              Dict.get (p_title p') kb = Some (dump_part p' kb_part0)
              /\ kp_chapters kb_part0 = [])
    parts ->
  export parts kb = Some (flat_map tree_part_units parts).
Proof.
  induction parts as [|p rest IH]; intros Huniq Hdump; [reflexivity|].
  inversion Huniq as [|? ? Hu Hus]; subst.
  inversion Hdump as [|? ? (kb_part0 & Hget & Hempty) Hds]; subst.
  cbn [export flat_map]. rewrite Hget. cbn [bind].
  rewrite export_part_dump by assumption. cbn [bind].
  now rewrite IH.
Qed.

Lemma resolve_chapters_at_keys d part_end :
  Dict.keys (resolve_chapters_at d part_end) = Dict.keys d.
Proof.
  induction d as [|[t c] rest IH]; [reflexivity|].
  cbn [resolve_chapters_at Dict.keys map fst]. f_equal. exact IH.
Qed.

Lemma resolve_at_unique parts total_pages :
  Forall unique_chapters parts ->
  Forall unique_chapters (resolve_at parts total_pages).
Proof.
  induction 1 as [|p rest Hp _ IH]; simpl; constructor; auto.
  unfold unique_chapters. simpl. now rewrite resolve_chapters_at_keys.
Qed.

Lemma Forall2_same_shape_unique parts parts' :
  Forall2 same_shape parts parts' ->
  Forall unique_chapters parts -> Forall unique_chapters parts'.
Proof.
  induction 1 as [|p p' rest rest' (_ & Hk & _) _ IH]; intros H;
    [constructor|].
  inversion H; subst. constructor; auto.
  unfold unique_chapters. now rewrite Hk.
Qed.

(** X12. When no two Parts of the outline have the same title, the units
    that [main] exports are those of the final tree: for each Part its own
    knowledge followed by that of its other sections, then its other
    sections, then each Chapter with its own knowledge followed by that of
    its sections, then the Chapter's sections. *)
Lemma main_units_of_tree process_page toc total_pages kb0 :
  NoDup (map p_title (build toc)) ->
  exists out,
    main process_page toc total_pages kb0 = Some out
    /\ out_units out = flat_map tree_part_units (out_parts out).
Proof.
  intros Hnd. unfold main, route_all. rewrite outline_tree_at. cbn [bind].
  set (parts0 := resolve_at (build toc) total_pages).
  set (st0 := {| rs_kb := kb0; rs_calls := 0; rs_routed := [] |}).
  destruct (process_parts_dump process_page total_pages parts0 st0)
    as (parts & st & Hrun & Hdump & _).
  { apply outline_tree_ranged. }
  { subst parts0. now rewrite resolve_at_titles. }
  destruct (process_parts_run process_page total_pages parts0 st0
              (outline_tree_ranged toc total_pages))
    as (parts2 & st2 & batch & Hrun2 & Hshape & _).
  rewrite Hrun in Hrun2. injection Hrun2 as <- <-.
  rewrite Hrun. cbn [bind]. rewrite export_dumped; [| |exact Hdump].
  - cbn [bind]. eexists. split; reflexivity.
  - apply (Forall2_same_shape_unique parts0); [exact Hshape|].
    apply resolve_at_unique, build_unique_chapters.
Qed.

(** Two Parts with one title share the record of the knowledge base: the
    copy of the second replaces that of the first, and both folders are
    exported from it. *)
Definition numbered_page (n : nat) (page_i : Z) : PageContent :=
  {| has_content := true;
     knowledge := [format_02d (Z.to_nat page_i)] |}.

Lemma same_part_title_example :
  option_map
    (fun out =>
       (map (fun p => (p_title p, part_knowledge p)) (out_parts out),
        map (fun u => (eu_folder u, eu_points u)) (out_units out)))
    (main numbered_page [(1, "Part I", 1); (1, "Part I", 3)] 4 [])
  = Some ([("Part I", ["00"; "01"]); ("Part I", ["02"; "03"])],
          [(["Part I"], ["02"; "03"]); (["Part I"], ["02"; "03"])]).
Proof. reflexivity. Qed.

(** * Further properties of the code *)

(** ** The parts of the tree and the Part entries of the outline *)

Definition entry_level (e : toc_entry) : Z := fst (fst e).
Definition entry_title (e : toc_entry) : string := snd (fst e).
Definition entry_page (e : toc_entry) : Z := snd e.

Definition opens_part (e : toc_entry) : bool :=
  is_part_entry (entry_level e) (entry_title e).

(** The title and the start of a part. *)
Definition part_key (p : part) : string * Z := (p_title p, p_start p).

Definition entry_key (e : toc_entry) : string * Z :=
  (entry_title e, entry_page e - 1).

Lemma close_parts_step st e :
  map part_key (close_parts (build_step st e))
  = map part_key (close_parts st)
      ++ (if opens_part e then [entry_key e] else []).
Proof.
  destruct st as [parts current_part]. destruct e as [[level title] page_num].
  unfold opens_part, entry_key, entry_level, entry_title, entry_page.
  cbn [fst snd]. unfold build_step.
  destruct (is_part_entry level title).
  - unfold close_parts. cbn [fst snd].
    destruct current_part as [cp|]; rewrite !map_app; reflexivity.
  - rewrite app_nil_r. destruct current_part as [cp|]; [|reflexivity].
    destruct (is_chapter_entry level title).
    + unfold close_parts. cbn [fst snd]. now rewrite !map_app.
    + destruct (last_opt (Dict.keys (chapters cp)));
        unfold close_parts; cbn [fst snd]; now rewrite !map_app.
Qed.

Lemma close_parts_fold l :
  forall st,
    map part_key (close_parts (fold_left build_step l st))
    = map part_key (close_parts st) ++ map entry_key (filter opens_part l).
Proof.
  induction l as [|e rest IH]; intros st; cbn [fold_left filter].
  - now rewrite app_nil_r.
  - rewrite IH, close_parts_step.
    destruct (opens_part e); cbn [map]; now rewrite <- app_assoc.
Qed.

(** X1. The tree has one part for each Part entry of the outline (of the
    fallback outline when the outline is empty), in outline order, with the
    entry's title and the entry's page - 1 as start; no other entry makes a
    part. *)
Theorem parts_are_the_part_entries (toc : list toc_entry) :
  map part_key (build toc)
  = map entry_key (filter opens_part (toc_or_fallback toc)).
Proof. unfold build, build_loop. now rewrite close_parts_fold. Qed.

(** X2. Entries that come before the first Part entry leave no trace: the
    tree of the outline is the tree of what follows them. *)
Theorem entries_before_first_part_dropped (pre l : list toc_entry) :
  no_part_entry pre ->
  l <> [] ->
  build (pre ++ l) = build l.
Proof.
  intros Hno Hl. unfold build.
  replace (toc_or_fallback (pre ++ l)) with (pre ++ l)
    by (destruct pre; [destruct l|]; [contradiction|reflexivity..]).
  replace (toc_or_fallback l) with l
    by (destruct l; [contradiction|reflexivity]).
  now rewrite build_loop_app, build_loop_no_part.
Qed.

Lemma entries_before_first_part_dropped_witness :
  build ([(2, "Chapter 1", 1); (3, "Preface", 2)]
           ++ [(1, "Part I", 3); (2, "Chapter 2", 4)])
  = build [(1, "Part I", 3); (2, "Chapter 2", 4)].
Proof.
  apply entries_before_first_part_dropped.
  - intros level title page_num [H|[H|[]]]; injection H as <- <- <-;
      reflexivity.
  - discriminate.
Defined.

Lemma nondecreasing_cons_iff a l :
  nondecreasing (a :: l)
  <-> (forall x, In x l -> a <= x) /\ nondecreasing l.
Proof.
  split.
  - intros H. split; [now apply nondecreasing_head|].
    now apply nondecreasing_tail in H.
  - intros [Hle Hl]. destruct l as [|b l]; [exact I|].
    split; [apply Hle; now left|exact Hl].
Qed.

Lemma nondecreasing_filter_map {A : Type} (f : A -> Z) (g : A -> bool) l :
  nondecreasing (map f l) -> nondecreasing (map f (filter g l)).
Proof.
  induction l as [|a l IH]; intros H; [exact I|].
  cbn [map] in H. apply nondecreasing_cons_iff in H as [Hle Hl].
  cbn [filter]. destruct (g a); [|now apply IH].
  cbn [map]. apply nondecreasing_cons_iff. split; [|now apply IH].
  intros x Hx. apply Hle. apply in_map_iff in Hx as (y & <- & Hy).
  apply in_map. now apply filter_In in Hy.
Qed.

Lemma nondecreasing_shift l :
  nondecreasing l -> nondecreasing (map (fun x => x - 1) l).
Proof.
  induction l as [|a [|b l] IH]; simpl; auto.
  intros [Hab Hl]. split; [lia|]. now apply IH.
Qed.

(** X3. When the pages of the outline never go back, the Parts of the
    resolved tree start in non-decreasing order, and every page index from
    the first Part's start to total_pages - 1 is in the range of exactly
    one Part. *)
Theorem ordered_outline_parts_cover (toc : list toc_entry) (total_pages : Z) :
  nondecreasing (map entry_page toc) ->
  exists parts,
    outline_tree toc total_pages = Some parts
    /\ nondecreasing (map p_start parts)
    /\ forall first, nth_error parts 0 = Some first ->
       forall page_i, p_start first <= page_i <= total_pages - 1 ->
       exists i,
         (exists p, nth_error parts i = Some p /\ part_contains p page_i)
         /\ forall j q, nth_error parts j = Some q ->
              part_contains q page_i -> j = i.
Proof.
  intros Hsorted.
  set (parts := resolve_at (build toc) total_pages).
  assert (Hstarts : nondecreasing (map p_start parts)).
  { subst parts. rewrite resolve_at_starts.
    replace (map p_start (build toc)) with (map snd (map part_key (build toc)))
      by (rewrite map_map; reflexivity).
    unfold build, build_loop. rewrite close_parts_fold.
    change (map part_key (close_parts ([], None))) with (@nil (string * Z)).
    cbn [app]. rewrite map_map.
    replace (map (fun e => snd (entry_key e))
               (filter opens_part (toc_or_fallback toc)))
      with (map (fun x => x - 1)
              (map entry_page (filter opens_part (toc_or_fallback toc))))
      by (rewrite map_map; reflexivity).
    apply nondecreasing_shift.
    destruct toc as [|e rest]; [exact I|].
    cbn [toc_or_fallback]. now apply nondecreasing_filter_map. }
  exists parts. split; [apply outline_tree_at|]. split; [exact Hstarts|].
  intros first Hfirst page_i Hp.
  destruct (siblings_cover_once (total_pages - 1) (map part_range parts))
    with (first := part_range first) (page_i := page_i)
    as (i & (r & Hi & Hr) & Hu).
  - apply resolve_at_ends.
  - now rewrite map_map.
  - rewrite nth_error_map, Hfirst. reflexivity.
  - exact Hp.
  - exists i. split.
    + rewrite nth_error_map in Hi.
      destruct (nth_error parts i) as [p|]; [|discriminate].
      injection Hi as <-. exists p. now split.
    + intros j q Hj Hq. apply (Hu j (part_range q)); [|exact Hq].
      rewrite nth_error_map, Hj. reflexivity.
Qed.

Lemma ordered_outline_parts_cover_witness :
  exists parts,
    outline_tree [(1, "Part I", 1); (2, "Chapter 1", 3); (1, "Part II", 11)]
      20 = Some parts
    /\ nondecreasing (map p_start parts)
    /\ forall first, nth_error parts 0 = Some first ->
       forall page_i, p_start first <= page_i <= 20 - 1 ->
       exists i,
         (exists p, nth_error parts i = Some p /\ part_contains p page_i)
         /\ forall j q, nth_error parts j = Some q ->
              part_contains q page_i -> j = i.
Proof.
  apply ordered_outline_parts_cover. simpl. lia.
Defined.

(** ** What the resolver reads and what it writes *)

Definition clear_section (s : section) : section :=
  {| s_title := s_title s; s_level := s_level s; s_start := s_start s;
     s_end := None; s_knowledge := s_knowledge s |}.

Definition clear_chapter (c : chapter) : chapter :=
  {| c_start := c_start c; c_end := None;
     chapter_knowledge := chapter_knowledge c;
     sections := map clear_section (sections c) |}.

(** The part with every ["end"] set back to [None]. *)
Definition clear_part (p : part) : part :=
  {| p_title := p_title p; p_start := p_start p; p_end := None;
     part_knowledge := part_knowledge p;
     chapters := map (fun tc => (fst tc, clear_chapter (snd tc)))
                   (chapters p);
     other_sections := map clear_section (other_sections p) |}.

Lemma clear_resolve_sections secs parent_end :
  map clear_section (resolve_sections secs parent_end)
  = map clear_section secs.
Proof.
  induction secs as [|s rest IH]; [reflexivity|].
  cbn [resolve_sections map]. now rewrite IH.
Qed.

Lemma clear_resolve_chapters d part_end :
  map (fun tc => (fst tc, clear_chapter (snd tc)))
    (resolve_chapters_at d part_end)
  = map (fun tc => (fst tc, clear_chapter (snd tc))) d.
Proof.
  induction d as [|[t c] rest IH]; [reflexivity|].
  cbn [resolve_chapters_at map fst snd]. rewrite IH. f_equal. f_equal.
  unfold clear_chapter, resolve_chapter.
  cbn [c_start chapter_knowledge sections].
  now rewrite clear_resolve_sections.
Qed.

Lemma clear_resolve_at parts total_pages :
  map clear_part (resolve_at parts total_pages) = map clear_part parts.
Proof.
  induction parts as [|p rest IH]; [reflexivity|].
  cbn [resolve_at map]. rewrite IH. f_equal.
  unfold clear_part, resolve_part_at.
  cbn [p_title p_start part_knowledge chapters other_sections].
  now rewrite clear_resolve_chapters, clear_resolve_sections.
Qed.

(** The builder leaves every ["end"] at [None]. *)
Definition clear_chapters (d : Dict.t chapter) : Dict.t chapter :=
  map (fun tc => (fst tc, clear_chapter (snd tc))) d.

Lemma clear_chapters_set k v d :
  clear_chapters d = d -> clear_chapter v = v ->
  clear_chapters (Dict.set k v d) = Dict.set k v d.
Proof.
  unfold clear_chapters. intros Hd Hv.
  induction d as [|[k' c'] d IH]; simpl in *.
  - now rewrite Hv.
  - injection Hd as Hc Hd.
    destruct (String.eqb k k'); simpl.
    + now rewrite Hv, Hd.
    + now rewrite Hc, IH.
Qed.

Lemma clear_chapters_alter f k d :
  clear_chapters d = d ->
  (forall c, clear_chapter c = c -> clear_chapter (f c) = f c) ->
  clear_chapters (Dict.alter f k d) = Dict.alter f k d.
Proof.
  unfold clear_chapters. intros Hd Hf.
  induction d as [|[k' c'] d IH]; simpl in *; [reflexivity|].
  injection Hd as Hc Hd.
  destruct (String.eqb k k'); simpl.
  - now rewrite Hd, Hf.
  - now rewrite Hc, IH.
Qed.

Lemma clear_part_fixed p :
  clear_part p = p
  <-> p_end p = None
      /\ clear_chapters (chapters p) = chapters p
      /\ map clear_section (other_sections p) = other_sections p.
Proof.
  destruct p as [t s e k d o]. unfold clear_part. cbn. split.
  - intros [= <- Hd Ho]. auto.
  - intros (-> & Hd & Ho). unfold clear_chapters in Hd. now rewrite Hd, Ho.
Qed.

Lemma clear_section_fixed s : s_end s = None -> clear_section s = s.
Proof. destruct s. unfold clear_section. cbn. now intros ->. Qed.

Lemma build_unresolved toc : Forall (fun p => clear_part p = p) (build toc).
Proof.
  apply build_all.
  - reflexivity.
  - intros cp title start_idx H. apply clear_part_fixed in H as (He & Hd & Ho).
    apply clear_part_fixed. cbn. repeat split; auto.
    now apply clear_chapters_set.
  - intros cp k sec H _ Hsec.
    apply clear_part_fixed in H as (He & Hd & Ho).
    apply clear_part_fixed. cbn. repeat split; auto.
    apply clear_chapters_alter; [exact Hd|].
    intros c Hc. destruct c as [cs ce ck secs].
    unfold clear_chapter in *. cbn in *. injection Hc as Hce Hsecs.
    rewrite Hce. f_equal. rewrite map_app, Hsecs. cbn.
    now rewrite clear_section_fixed.
  - intros cp sec H _ Hsec.
    apply clear_part_fixed in H as (He & Hd & Ho).
    apply clear_part_fixed. cbn. repeat split; auto.
    rewrite map_app, Ho. cbn. now rewrite clear_section_fixed.
Qed.

Lemma map_fixed {A : Type} (f : A -> A) (l : list A) :
  Forall (fun x => f x = x) l -> map f l = l.
Proof. induction 1 as [|x l Hx _ IH]; simpl; congruence. Qed.

(** X4. The resolver writes ["end"] fields and nothing else: setting
    every end of the resolved tree back to [None] gives the tree as the
    builder made it, with its titles, levels, starts, chapter titles and
    empty knowledge lists. *)
Theorem resolver_writes_ends_only (toc : list toc_entry) (total_pages : Z) :
  exists parts,
    outline_tree toc total_pages = Some parts
    /\ map clear_part parts = build toc.
Proof.
  exists (resolve_at (build toc) total_pages).
  split; [apply outline_tree_at|].
  rewrite clear_resolve_at. apply map_fixed, build_unresolved.
Qed.

Lemma resolve_sections_again secs e1 e2 :
  resolve_sections (resolve_sections secs e1) e2 = resolve_sections secs e2.
Proof.
  induction secs as [|s rest IH]; [reflexivity|].
  cbn [resolve_sections]. rewrite IH. f_equal.
  destruct rest as [|s2 rest2]; reflexivity.
Qed.

Lemma resolve_chapters_at_again d e1 e2 :
  resolve_chapters_at (resolve_chapters_at d e1) e2
  = resolve_chapters_at d e2.
Proof.
  induction d as [|[t c] rest IH]; [reflexivity|].
  cbn [resolve_chapters_at]. rewrite IH. f_equal.
  destruct rest as [|[t2 c2] rest2]; unfold resolve_chapter; cbn;
    now rewrite resolve_sections_again.
Qed.

Lemma resolve_at_again parts t1 t2 :
  resolve_at (resolve_at parts t1) t2 = resolve_at parts t2.
Proof.
  induction parts as [|p rest IH]; [reflexivity|].
  cbn [resolve_at]. rewrite IH. f_equal.
  destruct rest as [|p2 rest2]; unfold resolve_part_at; cbn;
    now rewrite resolve_chapters_at_again, resolve_sections_again.
Qed.

(** X5. The ends a tree already has do not influence the resolver:
    resolving the resolved tree again, with the same or with another page
    count, gives the tree resolved with that page count. *)
Theorem resolver_overwrites_ends (toc : list toc_entry)
    (total_pages total_pages' : Z) :
  exists parts parts',
    outline_tree toc total_pages = Some parts
    /\ outline_tree toc total_pages' = Some parts'
    /\ resolve parts total_pages' = Some parts'.
Proof.
  exists (resolve_at (build toc) total_pages),
    (resolve_at (build toc) total_pages').
  split; [apply outline_tree_at|]. split; [apply outline_tree_at|].
  rewrite resolve_unique.
  - now rewrite resolve_at_again.
  - apply resolve_at_unique, build_unique_chapters.
Qed.

(** ** Which record a page goes to *)

Section SearchResult.
Variable A : Type.
Variable test : A -> option bool.
Variable upd : A -> option A.

Lemma update_first_none l :
  Forall (fun y => test y = Some false) l ->
  update_first test upd l = Some (l, false).
Proof.
  induction 1 as [|x rest Hx _ IH]; [reflexivity|].
  cbn [update_first]. rewrite Hx. cbn [bind]. now rewrite IH.
Qed.

Lemma update_first_found l1 x x' l2 :
  Forall (fun y => test y = Some false) l1 ->
  test x = Some true ->
  upd x = Some x' ->
  update_first test upd (l1 ++ x :: l2) = Some (l1 ++ x' :: l2, true).
Proof.
  intros Hl1 Hx Hx'. induction Hl1 as [|y rest Hy _ IH]; cbn [app update_first].
  - rewrite Hx. cbn [bind]. now rewrite Hx'.
  - rewrite Hy. cbn [bind]. now rewrite IH.
Qed.

Lemma update_first_reversed_none l :
  Forall (fun y => test y = Some false) l ->
  update_first_reversed test upd l = Some (l, false).
Proof.
  intros H. unfold update_first_reversed.
  rewrite update_first_none by now apply Forall_rev.
  cbn [bind]. now rewrite rev_involutive.
Qed.

Lemma update_first_reversed_found l1 x x' l2 :
  Forall (fun y => test y = Some false) l2 ->
  test x = Some true ->
  upd x = Some x' ->
  update_first_reversed test upd (l1 ++ x :: l2)
  = Some (l1 ++ x' :: l2, true).
Proof.
  intros Hl2 Hx Hx'. unfold update_first_reversed.
  rewrite rev_app_distr. cbn [rev]. rewrite <- app_assoc. cbn [app].
  rewrite (update_first_found (rev l2) x x' (rev l1))
    by (auto using Forall_rev).
  cbn [bind]. rewrite rev_app_distr. cbn [rev].
  rewrite !rev_involutive, <- app_assoc. reflexivity.
Qed.

End SearchResult.

Arguments update_first_none {A} test upd l _.
Arguments update_first_found {A} test upd l1 x x' l2 _ _ _.
Arguments update_first_reversed_none {A} test upd l _.
Arguments update_first_reversed_found {A} test upd l1 x x' l2 _ _ _.

Definition chapter_misses (page_i : Z) (tc : string * chapter) : Prop :=
  chapter_contains page_i tc = Some false.

Definition section_misses (page_i : Z) (s : section) : Prop :=
  section_contains page_i s = Some false.

(** X6. A page inside a chapter. Let [(t, c)] be the last chapter of the
    part, in the order of the dictionary, whose range contains the page
    (the chapters before it are not looked at).  If [s] is the first
    section of [c] whose range contains the page, the knowledge is appended
    to [s]; if no section of [c] contains the page, it is appended to the
    chapter's own list.  Nothing else in the part changes. *)
Theorem page_in_chapter (p : part) (page_i : Z) (k : list string)
    (d1 d2 : Dict.t chapter) (t : string) (c : chapter) :
  chapters p = d1 ++ (t, c) :: d2 ->
  chapter_contains page_i (t, c) = Some true ->
  Forall (chapter_misses page_i) d2 ->
  (forall s1 s s2,
     sections c = s1 ++ s :: s2 ->
     Forall (section_misses page_i) s1 ->
     section_contains page_i s = Some true ->
     route_page p page_i k
     = Some (set_chapters p
               (d1 ++ (t, set_sections c
                            (s1 ++ set_s_knowledge s (s_knowledge s ++ k)
                                :: s2)) :: d2)))
  /\ (Forall (section_misses page_i) (sections c) ->
      route_page p page_i k
      = Some (set_chapters p
                (d1 ++ (t, set_chapter_knowledge c
                             (chapter_knowledge c ++ k)) :: d2))).
Proof.
  intros Hd Hc Hd2. split.
  - intros s1 s s2 Hs Hs1 Hin. unfold route_page. rewrite Hd.
    rewrite (update_first_reversed_found (chapter_contains page_i)
               (route_in_chapter page_i k) d1 (t, c)
               (t, set_sections c
                     (s1 ++ set_s_knowledge s (s_knowledge s ++ k) :: s2))
               d2 Hd2 Hc).
    + reflexivity.
    + unfold route_in_chapter. rewrite Hs.
      now rewrite (update_first_found (section_contains page_i)
                     (section_extend k) s1 s
                     (set_s_knowledge s (s_knowledge s ++ k)) s2 Hs1 Hin).
  - intros Hnone. unfold route_page. rewrite Hd.
    rewrite (update_first_reversed_found (chapter_contains page_i)
               (route_in_chapter page_i k) d1 (t, c)
               (t, set_chapter_knowledge c (chapter_knowledge c ++ k))
               d2 Hd2 Hc).
    + reflexivity.
    + unfold route_in_chapter.
      now rewrite (update_first_none (section_contains page_i)
                     (section_extend k) (sections c) Hnone).
Qed.

(** X7. A page outside every chapter of the part. If [s] is the last of
    the part's other sections whose range contains the page, the knowledge
    is appended to [s]; if no other section contains the page, it is
    appended to the part's own list.  Nothing else in the part changes. *)
Theorem page_outside_chapters (p : part) (page_i : Z) (k : list string) :
  Forall (chapter_misses page_i) (chapters p) ->
  (forall o1 s o2,
     other_sections p = o1 ++ s :: o2 ->
     section_contains page_i s = Some true ->
     Forall (section_misses page_i) o2 ->
     route_page p page_i k
     = Some (set_other_sections p
               (o1 ++ set_s_knowledge s (s_knowledge s ++ k) :: o2)))
  /\ (Forall (section_misses page_i) (other_sections p) ->
      route_page p page_i k
      = Some (set_part_knowledge p (part_knowledge p ++ k))).
Proof.
  intros Hch. split.
  - intros o1 s o2 Ho Hs Ho2. unfold route_page.
    rewrite (update_first_reversed_none (chapter_contains page_i)
               (route_in_chapter page_i k) (chapters p) Hch).
    cbn [bind]. rewrite Ho.
    now rewrite (update_first_reversed_found (section_contains page_i)
                   (section_extend k) o1 s
                   (set_s_knowledge s (s_knowledge s ++ k)) o2 Ho2 Hs).
  - intros Ho. unfold route_page.
    rewrite (update_first_reversed_none (chapter_contains page_i)
               (route_in_chapter page_i k) (chapters p) Hch).
    cbn [bind].
    now rewrite (update_first_reversed_none (section_contains page_i)
                   (section_extend k) (other_sections p) Ho).
Qed.

Definition overlap_chapter : chapter :=
  {| c_start := 0; c_end := Some 19; chapter_knowledge := [];
     sections := [{| s_title := "A"; s_level := 3; s_start := 0;
                     s_end := Some 8; s_knowledge := [] |};
                  {| s_title := "B"; s_level := 3; s_start := 9;
                     s_end := Some 1; s_knowledge := [] |};
                  {| s_title := "C"; s_level := 3; s_start := 2;
                     s_end := Some 19; s_knowledge := [] |}] |}.

Definition overlap_part : part :=
  {| p_title := "Part I"; p_start := 0; p_end := Some 19;
     part_knowledge := []; chapters := [("Chapter 1", overlap_chapter)];
     other_sections := sections overlap_chapter |}.

Lemma page_in_chapter_witness :
  route_page overlap_part 5 ["x"]
  = Some (set_chapters overlap_part
            ([] ++ ("Chapter 1",
                    set_sections overlap_chapter
                      ([] ++ set_s_knowledge
                               {| s_title := "A"; s_level := 3; s_start := 0;
                                  s_end := Some 8; s_knowledge := [] |}
                               ([] ++ ["x"])
                          :: [{| s_title := "B"; s_level := 3; s_start := 9;
                                 s_end := Some 1; s_knowledge := [] |};
                              {| s_title := "C"; s_level := 3; s_start := 2;
                                 s_end := Some 19; s_knowledge := [] |}]))
               :: [])).
Proof.
  apply (proj1 (page_in_chapter overlap_part 5 ["x"] [] [] "Chapter 1"
                  overlap_chapter eq_refl eq_refl (Forall_nil _))
           [] _ _ eq_refl (Forall_nil _) eq_refl).
Defined.

Lemma page_outside_chapters_witness :
  route_page (set_chapters overlap_part []) 5 ["x"]
  = Some (set_other_sections (set_chapters overlap_part [])
            ([{| s_title := "A"; s_level := 3; s_start := 0;
                 s_end := Some 8; s_knowledge := [] |};
              {| s_title := "B"; s_level := 3; s_start := 9;
                 s_end := Some 1; s_knowledge := [] |}]
               ++ set_s_knowledge
                    {| s_title := "C"; s_level := 3; s_start := 2;
                       s_end := Some 19; s_knowledge := [] |}
                    ([] ++ ["x"])
               :: [])).
Proof.
  apply (proj1 (page_outside_chapters (set_chapters overlap_part []) 5 ["x"]
                  (Forall_nil _))
           [_; _] _ [] eq_refl eq_refl (Forall_nil _)).
Defined.

Lemma searched_same {A : Type} (test : A -> option bool)
    (upd : A -> option A) (l l' : list A) (found : bool) :
  (forall x x', upd x = Some x' -> x' = x) ->
  searched test upd l l' found \/ searched_reversed test upd l l' found ->
  l' = l.
Proof.
  intros Hupd [H|H]; inversion H as [|l1 x x' l2 _ _ Hx]; subst;
    try reflexivity; now rewrite (Hupd x x' Hx).
Qed.

Lemma section_extend_nil s s' : section_extend [] s = Some s' -> s' = s.
Proof.
  intros [= <-]. destruct s. unfold set_s_knowledge. cbn.
  now rewrite app_nil_r.
Qed.

Lemma route_in_chapter_nil page_i tc tc' :
  route_in_chapter page_i [] tc = Some tc' -> tc' = tc.
Proof.
  destruct tc as [t c]. unfold route_in_chapter. intros H.
  destruct (update_first (section_contains page_i) (section_extend [])
              (sections c)) as [[secs f]|] eqn:E; cbn [bind] in H;
    [|discriminate].
  apply update_first_searched in E.
  assert (Hsame : secs = sections c).
  { eapply searched_same; [apply section_extend_nil|left; exact E]. }
  subst secs. destruct c as [cs ce ck secs].
  destruct f; injection H as <-; unfold set_sections, set_chapter_knowledge;
    cbn; [reflexivity|now rewrite app_nil_r].
Qed.

(** X8. A page that has content but no knowledge point changes nothing:
    routing the empty list into a part whose records have their ends
    returns the part as it was. *)
Theorem empty_knowledge_changes_nothing (p : part) (page_i : Z) :
  part_ranged p -> route_page p page_i [] = Some p.
Proof.
  intros Hp. destruct (route_page_total page_i [] p Hp) as [p' Hroute].
  rewrite Hroute. f_equal. unfold route_page in Hroute.
  destruct (update_first_reversed (chapter_contains page_i)
              (route_in_chapter page_i []) (chapters p))
    as [[chs in_chapter]|] eqn:Ec; cbn [bind] in Hroute; [|discriminate].
  apply update_first_reversed_searched in Ec.
  assert (Hchs : chs = chapters p).
  { eapply searched_same; [apply (route_in_chapter_nil page_i)|].
    right. exact Ec. }
  subst chs. destruct p as [t s e kn d o].
  destruct in_chapter; [now injection Hroute as <-|].
  cbn [other_sections] in Hroute.
  destruct (update_first_reversed (section_contains page_i)
              (section_extend []) o)
    as [[others in_other]|] eqn:Eo; cbn [bind] in Hroute; [|discriminate].
  apply update_first_reversed_searched in Eo.
  assert (Hothers : others = o).
  { eapply searched_same; [apply section_extend_nil|right; exact Eo]. }
  subst others.
  destruct in_other; injection Hroute as <-;
    unfold set_other_sections, set_part_knowledge; cbn;
    [reflexivity|now rewrite app_nil_r].
Qed.

Lemma empty_knowledge_changes_nothing_witness :
  route_page overlap_part 5 [] = Some overlap_part.
Proof.
  apply empty_knowledge_changes_nothing.
  unfold part_ranged. simpl. repeat constructor; discriminate.
Defined.

(** ** The pages that are processed *)

Lemma range_In lo hi x : In x (range lo hi) <-> lo <= x < hi.
Proof.
  unfold range. rewrite in_map_iff. split.
  - intros (i & <- & Hi). apply in_seq in Hi. lia.
  - intros H. exists (Z.to_nat (x - lo)). split; [lia|].
    apply in_seq. lia.
Qed.

(** The page indexes of a part that the page loop visits: its range, cut
    at [limit_pages - 1]. *)
Definition part_pages (total_pages : Z) (p : part) : list Z :=
  match p_end p with
  | Some e => range (p_start p) (Z.min e (limit_pages total_pages - 1) + 1)
  | None => []
  end.

(** The calls of [process_page] for a list of pages, the first being call
    number [calls], and the batches that are routed from the answers. *)
Fixpoint answers (process_page : nat -> Z -> PageContent) (calls : nat)
    (pages : list Z) : list (Z * list string) :=
  match pages with
  | [] => []
  | page_i :: rest =>
      (if has_content (process_page calls page_i)
       then [(page_i, knowledge (process_page calls page_i))]
       else [])
        ++ answers process_page (S calls) rest
  end.

Lemma answers_app process_page pages1 :
  forall calls pages2,
    answers process_page calls (pages1 ++ pages2)
    = answers process_page calls pages1
        ++ answers process_page (calls + List.length pages1) pages2.
Proof.
  induction pages1 as [|page_i rest IH]; intros calls pages2; cbn.
  - now rewrite Nat.add_0_r, ?app_nil_l.
  - rewrite IH, <- app_assoc. now rewrite Nat.add_succ_r.
Qed.

Lemma answers_pages process_page pages :
  forall calls b, In b (answers process_page calls pages) -> In (fst b) pages.
Proof.
  induction pages as [|page_i rest IH]; intros calls b Hb; [contradiction|].
  cbn [answers] in Hb. apply in_app_or in Hb as [Hb|Hb].
  - destruct (has_content (process_page calls page_i)); [|contradiction].
    destruct Hb as [<-|[]]. now left.
  - right. now apply (IH (S calls)).
Qed.

Section LogFacts.
Variable process_page : nat -> Z -> PageContent.
Variable total_pages : Z.

Lemma page_loop_log pages :
  forall p calls routed,
    part_ranged p ->
    Forall (fun page_i => page_i < limit_pages total_pages) pages ->
    exists p',
      page_loop process_page total_pages pages p calls routed
      = Some (p', (calls + List.length pages)%nat,
              routed ++ answers process_page calls pages)
      /\ same_shape p p'.
Proof.
  induction pages as [|page_i rest IH]; intros p calls routed Hp Hlim.
  - exists p. cbn. rewrite Nat.add_0_r, app_nil_r.
    split; [reflexivity|apply same_shape_refl].
  - inversion Hlim as [|? ? Hpage Hrest]; subst.
    cbn [page_loop answers List.length].
    destruct (Z.leb_spec (limit_pages total_pages) page_i) as [Hbad|_];
      [lia|].
    rewrite Nat.add_succ_r.
    destruct (has_content (process_page calls page_i)); cbn [negb].
    + destruct (route_page_total page_i
                  (knowledge (process_page calls page_i)) p Hp)
        as [p1 Hroute].
      rewrite Hroute. cbn [bind].
      apply route_page_lists in Hroute as (Ht & Hk & Hr & _).
      assert (Hshape : same_shape p p1) by now repeat split.
      destruct (IH p1 (S calls)
                  (routed ++ [(page_i, knowledge (process_page calls page_i))])
                  (same_shape_ranged _ _ Hshape Hp) Hrest)
        as (p' & -> & Hshape').
      exists p'. rewrite <- !app_assoc. split; [reflexivity|].
      eapply same_shape_trans; eassumption.
    + destruct (IH p (S calls) routed Hp Hrest) as (p' & -> & Hshape').
      exists p'. now split.
Qed.

Lemma part_pages_limit p :
  Forall (fun page_i => page_i < limit_pages total_pages)
    (part_pages total_pages p).
Proof.
  apply Forall_forall. intros x Hx. unfold part_pages in Hx.
  destruct (p_end p) as [e|]; [|contradiction].
  apply range_In in Hx. lia.
Qed.

Lemma process_part_log p st :
  part_ranged p ->
  exists p' st',
    process_part process_page total_pages p st = Some (p', st')
    /\ same_shape p p'
    /\ rs_calls st'
       = (rs_calls st + List.length (part_pages total_pages p))%nat
    /\ rs_routed st'
       = rs_routed st
           ++ answers process_page (rs_calls st) (part_pages total_pages p).
Proof.
  intros Hp. unfold process_part.
  pose proof (part_pages_limit p) as Hlim. unfold part_pages in *.
  assert (He : exists e, p_end p = Some e).
  { inversion Hp as [|? ? H _]. simpl in H.
    destruct (p_end p) as [e|]; [eauto|contradiction]. }
  destruct He as [e He]. rewrite He in *. cbn [bind].
  destruct (page_loop_log _ p (rs_calls st) (rs_routed st) Hp Hlim)
    as (p' & -> & Hshape).
  cbn [bind]. rewrite DictFacts.get_set_same. cbn [bind].
  do 2 eexists. split; [reflexivity|]. cbn [rs_calls rs_routed].
  split; [exact Hshape|]. split; reflexivity.
Qed.

Lemma process_parts_log parts :
  forall st,
    Forall part_ranged parts ->
    exists parts' st',
      process_parts process_page total_pages parts st = Some (parts', st')
      /\ Forall2 same_shape parts parts'
      /\ rs_calls st'
         = (rs_calls st
            + List.length (flat_map (part_pages total_pages) parts))%nat
      /\ rs_routed st'
         = rs_routed st
             ++ answers process_page (rs_calls st)
                  (flat_map (part_pages total_pages) parts).
Proof.
  induction parts as [|p rest IH]; intros st Hall.
  - exists [], st. cbn. rewrite Nat.add_0_r, app_nil_r. now repeat split.
  - inversion Hall as [|? ? Hp Hrest]; subst.
    destruct (process_part_log p st Hp)
      as (p' & st1 & Hrun & Hshape & Hcalls & Hrouted).
    destruct (IH st1 Hrest)
      as (rest' & st2 & Hrun2 & Hshapes & Hcalls2 & Hrouted2).
    exists (p' :: rest'), st2. cbn [process_parts flat_map].
    rewrite Hrun. cbn [bind]. rewrite Hrun2. cbn [bind].
    split; [reflexivity|]. split; [now constructor|].
    rewrite Hcalls2, Hrouted2, Hcalls, Hrouted, length_app, answers_app.
    split; [lia|]. now rewrite <- app_assoc.
Qed.

End LogFacts.

(** X9. The page loop asks the model once for each page index of each
    Part's range cut at [limit_pages - 1], Part after Part and page after
    page, whether or not the page has content, and routes exactly the
    answers that have content, in that order. *)
Theorem pages_asked_and_routed (process_page : nat -> Z -> PageContent)
    (toc : list toc_entry) (total_pages : Z) (kb0 : knowledge_base) :
  exists parts0 parts st,
    outline_tree toc total_pages = Some parts0
    /\ route_all process_page toc total_pages kb0 = Some (parts, st)
    /\ rs_calls st
       = List.length (flat_map (part_pages total_pages) parts0)
    /\ rs_routed st
       = answers process_page 0 (flat_map (part_pages total_pages) parts0).
Proof.
  exists (resolve_at (build toc) total_pages).
  destruct (process_parts_log process_page total_pages
              (resolve_at (build toc) total_pages)
              {| rs_kb := kb0; rs_calls := 0; rs_routed := [] |}
              (outline_tree_ranged toc total_pages))
    as (parts & st & Hrun & _ & Hcalls & Hrouted).
  exists parts, st. split; [apply outline_tree_at|].
  unfold route_all. rewrite outline_tree_at. cbn [bind].
  now repeat split.
Qed.

(** X10. Whatever the size of the document, no page with index 60 or more
    is processed, because [TEST_PAGES] is 60; and every routed batch comes
    from a page inside the range of a Part of the resolved tree. *)
Theorem routed_pages_bounded (process_page : nat -> Z -> PageContent)
    (toc : list toc_entry) (total_pages : Z) (kb0 : knowledge_base) :
  exists parts0 parts st,
    outline_tree toc total_pages = Some parts0
    /\ route_all process_page toc total_pages kb0 = Some (parts, st)
    /\ Forall (fun b =>
                 fst b < 60
                 /\ exists p, In p parts0 /\ part_contains p (fst b))
         (rs_routed st).
Proof.
  exists (resolve_at (build toc) total_pages).
  destruct (process_parts_log process_page total_pages
              (resolve_at (build toc) total_pages)
              {| rs_kb := kb0; rs_calls := 0; rs_routed := [] |}
              (outline_tree_ranged toc total_pages))
    as (parts & st & Hrun & _ & _ & Hrouted).
  exists parts, st. split; [apply outline_tree_at|].
  unfold route_all. rewrite outline_tree_at. cbn [bind].
  split; [exact Hrun|]. cbn [rs_routed app] in Hrouted. rewrite Hrouted.
  apply Forall_forall. intros b Hb. apply answers_pages in Hb.
  apply in_flat_map in Hb as (p & Hp & Hb). unfold part_pages in Hb.
  destruct (p_end p) as [e|] eqn:He; [|contradiction].
  apply range_In in Hb. change (limit_pages total_pages) with 60 in Hb.
  split; [lia|]. exists p. split; [exact Hp|].
  apply contains_true_iff. cbn [part_range fst snd]. split; [lia|].
  exists e. split; [exact He|lia].
Qed.

(** ** The records of the knowledge base *)

Lemma dump_chapter_sections c :
  dump_chapter c
  = {| kc_start := c_start c; kc_end := c_end c;
       kc_chapter_knowledge := chapter_knowledge c;
       kc_sections := map dump_section (sections c) |}.
Proof.
  unfold dump_chapter. now rewrite (fold_append_map dump_section).
Qed.

(** The record written for a part whose range ends at [e]. *)
Definition kb_record (total_pages : Z) (p : part) (e : Z) : kb_part :=
  {| kp_start := p_start p;
     kp_end := Z.min e (limit_pages total_pages - 1);
     kp_part_knowledge := part_knowledge p;
     kp_chapters :=
       map (fun tc =>
              (fst tc,
               {| kc_start := c_start (snd tc); kc_end := c_end (snd tc);
                  kc_chapter_knowledge := chapter_knowledge (snd tc);
                  kc_sections := map dump_section (sections (snd tc)) |}))
         (chapters p);
     kp_other_sections := map dump_section (other_sections p) |}.

Lemma dump_part_record total_pages p e :
  unique_chapters p ->
  dump_part p
    {| kp_start := p_start p;
       kp_end := Z.min e (limit_pages total_pages - 1);
       kp_part_knowledge := []; kp_chapters := [];
       kp_other_sections := [] |}
  = kb_record total_pages p e.
Proof.
  intros Huniq. unfold dump_part, kb_record.
  cbn [kp_start kp_end kp_chapters].
  rewrite (fold_append_map dump_section), fold_set_map by exact Huniq.
  cbn [app]. f_equal. apply map_ext. intros [t c]. cbn [fst snd].
  now rewrite dump_chapter_sections.
Qed.

Section RecordFacts.
Variable process_page : nat -> Z -> PageContent.
Variable total_pages : Z.

Lemma same_shape_range p p' :
  same_shape p p' -> p_start p' = p_start p /\ p_end p' = p_end p.
Proof.
  intros (_ & _ & H). unfold part_node_ranges in H.
  injection H as Hs He _. now split.
Qed.

Lemma process_part_record p st :
  part_ranged p ->
  unique_chapters p ->
  exists p' st' e,
    process_part process_page total_pages p st = Some (p', st')
    /\ same_shape p p'
    /\ p_end p' = Some e
    /\ Dict.get (p_title p') (rs_kb st') = Some (kb_record total_pages p' e)
    /\ (forall t, t <> p_title p ->
          Dict.get t (rs_kb st') = Dict.get t (rs_kb st)).
Proof.
  intros Hp Huniq. unfold process_part.
  assert (He : exists e, p_end p = Some e).
  { inversion Hp as [|? ? H _]. simpl in H.
    destruct (p_end p) as [e|]; [eauto|contradiction]. }
  destruct He as [e He]. rewrite He. cbn [bind].
  destruct (page_loop_run process_page total_pages
              (range (p_start p)
                 (Z.min e (limit_pages total_pages - 1) + 1))
              p (rs_calls st) (rs_routed st) Hp)
    as (p' & calls' & batch & -> & Hshape & _).
  cbn [bind]. rewrite DictFacts.get_set_same. cbn [bind].
  destruct (same_shape_range p p' Hshape) as [Hstart Hend].
  destruct Hshape as (Ht & Hk & Hr).
  eexists p', _, e. split; [reflexivity|]. cbn [rs_kb].
  split; [now repeat split|]. split; [congruence|]. split.
  - rewrite Ht.
    rewrite (DictFacts.get_alter_same _ _ _ _ _
               (DictFacts.get_set_same _ _ _ _)).
    f_equal. rewrite <- Hstart. apply dump_part_record.
    unfold unique_chapters. now rewrite Hk.
  - intros t Hne. rewrite DictFacts.get_alter_other by assumption.
    now apply DictFacts.get_set_other.
Qed.

Lemma process_parts_records parts :
  forall st,
    Forall part_ranged parts ->
    Forall unique_chapters parts ->
    NoDup (map p_title parts) ->
    exists parts' st',
      process_parts process_page total_pages parts st = Some (parts', st')
      /\ Forall (fun p' =>
                   exists e,
                     p_end p' = Some e
                     /\ Dict.get (p_title p') (rs_kb st')
                        = Some (kb_record total_pages p' e))
           parts'
      /\ (forall t, ~ In t (map p_title parts) ->
            Dict.get t (rs_kb st') = Dict.get t (rs_kb st)).
Proof.
  induction parts as [|p rest IH]; intros st Hall Huniq Hnd.
  - exists [], st. repeat split; auto.
  - inversion Hall as [|? ? Hp Hrest]; subst.
    inversion Huniq as [|? ? Hu Hus]; subst.
    inversion Hnd as [|? ? Hout Hnd']; subst.
    destruct (process_part_record p st Hp Hu)
      as (p' & st1 & e & Hrun & (Ht & _) & Hend & Hget & Hkeep).
    destruct (IH st1 Hrest Hus Hnd')
      as (rest' & st2 & Hrun2 & Hrecs & Hkeep2).
    exists (p' :: rest'), st2. cbn [process_parts].
    rewrite Hrun. cbn [bind]. rewrite Hrun2. cbn [bind].
    split; [reflexivity|]. split.
    + constructor; [|exact Hrecs]. exists e. split; [exact Hend|].
      rewrite Hkeep2; [exact Hget|]. now rewrite Ht.
    + intros t Hnotin. rewrite Hkeep2, Hkeep; auto.
      * intros ->. apply Hnotin. now left.
      * intros Hin. apply Hnotin. now right.
Qed.

End RecordFacts.

(** X11. When no two Parts of the outline have the same title, the
    knowledge base holds after the page loop, under the title of every
    Part of the final tree, a record with the Part's start, the Part's end
    cut at [limit_pages - 1], and copies of the Part's knowledge, of its
    chapters under their titles (start, end, knowledge and sections) and of
    its other sections; a section's level is not copied. *)
Theorem knowledge_base_records (process_page : nat -> Z -> PageContent)
    (toc : list toc_entry) (total_pages : Z) (kb0 : knowledge_base) :
  NoDup (map p_title (build toc)) ->
  exists parts st,
    route_all process_page toc total_pages kb0 = Some (parts, st)
    /\ Forall (fun p' =>
                 exists e,
                   p_end p' = Some e
                   /\ Dict.get (p_title p') (rs_kb st)
                      = Some (kb_record total_pages p' e))
         parts.
Proof.
  intros Hnd. unfold route_all. rewrite outline_tree_at. cbn [bind].
  destruct (process_parts_records process_page total_pages
              (resolve_at (build toc) total_pages)
              {| rs_kb := kb0; rs_calls := 0; rs_routed := [] |})
    as (parts & st & Hrun & Hrecs & _).
  - apply outline_tree_ranged.
  - apply resolve_at_unique, build_unique_chapters.
  - now rewrite resolve_at_titles.
  - exists parts, st. now split.
Qed.

Lemma knowledge_base_records_witness :
  exists parts st,
    route_all numbered_page
      [(1, "Part I", 1); (2, "Chapter 1", 2); (1, "Part II", 3)] 4 []
    = Some (parts, st)
    /\ Forall (fun p' =>
                 exists e,
                   p_end p' = Some e
                   /\ Dict.get (p_title p') (rs_kb st)
                      = Some (kb_record 4 p' e))
         parts.
Proof.
  apply knowledge_base_records. simpl.
  repeat constructor; simpl; intuition discriminate.
Defined.

Lemma main_units_of_tree_witness :
  exists out,
    main numbered_page
      [(1, "Part I", 1); (2, "Chapter 1", 2); (1, "Part II", 3)] 4 []
    = Some out
    /\ out_units out = flat_map tree_part_units (out_parts out).
Proof.
  apply main_units_of_tree. simpl.
  repeat constructor; simpl; intuition discriminate.
Defined.

(** ** The numeric prefix of a file name *)

(** [int(s)] for a string of decimal digits. *)
Definition read_prefix (s : string) : option nat :=
  option_map Nat.of_uint (NilZero.uint_of_string s).

Lemma uint_of_string_nonempty c s :
  NilZero.uint_of_string (String c s) = NilEmpty.uint_of_string (String c s).
Proof. reflexivity. Qed.

Lemma read_string_of_uint d :
  read_prefix (NilZero.string_of_uint d) = Some (Nat.of_uint d).
Proof.
  unfold read_prefix.
  destruct d; try reflexivity;
    unfold NilZero.string_of_uint;
    match goal with
    | |- context [NilEmpty.string_of_uint ?u] =>
        pose proof (NilEmpty.usu u) as H;
        cbn [NilEmpty.string_of_uint] in H |- *;
        rewrite uint_of_string_nonempty, H
    end; reflexivity.
Qed.

Lemma read_leading_zero s :
  s <> "" -> read_prefix (String "0" s) = read_prefix s.
Proof.
  intros Hs. unfold read_prefix. rewrite uint_of_string_nonempty.
  destruct s as [|c s']; [contradiction|].
  rewrite uint_of_string_nonempty. cbn [NilEmpty.uint_of_string].
  destruct (uint_of_char c (NilEmpty.uint_of_string s')) as [u|];
    reflexivity.
Qed.

Lemma string_of_uint_nonempty d : NilZero.string_of_uint d <> "".
Proof. destruct d; discriminate. Qed.

Lemma read_format_02d n : read_prefix (format_02d n) = Some n.
Proof.
  unfold format_02d.
  destruct (String.length (NilZero.string_of_uint (Nat.to_uint n)) <? 2)%nat.
  - unfold String.append.
    rewrite read_leading_zero by apply string_of_uint_nonempty.
    now rewrite read_string_of_uint, DecimalNat.Unsigned.of_to.
  - now rewrite read_string_of_uint, DecimalNat.Unsigned.of_to.
Qed.

(** X14. The prefix [f"{n:02d}"] has at least two characters and the
    number can be read back from it; so different numbers give different
    prefixes. *)
Theorem prefix_round_trip (n : nat) :
  read_prefix (format_02d n) = Some n
  /\ (2 <= String.length (format_02d n))%nat
  /\ forall m, format_02d m = format_02d n -> m = n.
Proof.
  split; [apply read_format_02d|]. split.
  - unfold format_02d.
    destruct (Nat.ltb_spec
                (String.length (NilZero.string_of_uint (Nat.to_uint n))) 2)
      as [Hlt|Hge]; [|exact Hge].
    unfold String.append. cbn [String.length].
    pose proof (string_of_uint_nonempty (Nat.to_uint n)) as Hne.
    destruct (NilZero.string_of_uint (Nat.to_uint n)); [contradiction|].
    cbn [String.length]. lia.
  - intros m Heq. pose proof (read_format_02d m) as Hm.
    rewrite Heq, read_format_02d in Hm. now injection Hm.
Qed.

Lemma format_02d_inj m n : format_02d m = format_02d n -> m = n.
Proof.
  intros Heq. pose proof (read_format_02d m) as Hm.
  rewrite Heq, read_format_02d in Hm. now injection Hm.
Qed.

Lemma export_sections_numbers folder secs :
  forall idx,
    exists ns,
      map eu_prefix (export_sections folder idx secs) = map format_02d ns
      /\ Forall (fun i => (idx <= i)%nat) ns
      /\ NoDup ns.
Proof.
  induction secs as [|sec rest IH]; intros idx.
  - exists []. repeat split; constructor.
  - destruct (IH (S idx)) as (ns & Hmap & Hge & Hnd).
    cbn [export_sections]. destruct (ks_knowledge sec).
    + exists ns. repeat split; auto.
      eapply Forall_impl; [|exact Hge]. intros i Hi. simpl in Hi. lia.
    + exists (idx :: ns). cbn [map section_unit eu_prefix].
      rewrite Hmap. repeat split.
      * constructor; [lia|]. eapply Forall_impl; [|exact Hge].
        intros i Hi. simpl in Hi. lia.
      * constructor; [|exact Hnd]. intros Hin.
        rewrite Forall_forall in Hge. specialize (Hge idx Hin). lia.
Qed.

(** In the files of one list of sections, no two sections get the
    same prefix and none gets the prefix 00 of the README. *)
Lemma section_prefixes_distinct (folder : list string)
    (secs : list kb_section) :
  NoDup (map eu_prefix (export_sections folder 1 secs))
  /\ ~ In "00" (map eu_prefix (export_sections folder 1 secs)).
Proof.
  destruct (export_sections_numbers folder secs 1) as (ns & -> & Hge & Hnd).
  split.
  - clear Hge. induction Hnd as [|i ns Hout Hnd IH]; cbn [map];
      constructor; auto.
    intros Hin. apply in_map_iff in Hin as (j & Hj & Hin).
    apply format_02d_inj in Hj. now subst j.
  - intros Hin. apply in_map_iff in Hin as (j & Hj & Hin).
    change "00" with (format_02d 0) in Hj. apply format_02d_inj in Hj.
    rewrite Forall_forall in Hge. specialize (Hge j Hin). lia.
Qed.

(** ** File and folder names

    [save_md] writes to [folder / f"{filename_prefix}-{safe_name}.md"] with
    [safe_name = re.sub(r"[^\w-]+", "-", title.lower()).strip("-")]; the
    folder of a part, and of a chapter inside it, is named
    [re.sub(r"[^\w-]+", "-", title.lower())].  Titles are read as ASCII
    text, so [\w] is a letter, a digit or the underscore. *)

(** [\w] on ASCII text. *)
Definition isword (c : ascii) : bool :=
  let n := nat_of_ascii c in
  ((48 <=? n) && (n <=? 57) || (65 <=? n) && (n <=? 90)
   || (97 <=? n) && (n <=? 122) || (n =? 95))%nat.

(** A character that [[^\w-]] does not match. *)
Definition kept (c : ascii) : bool := isword c || Ascii.eqb c "-".

(** [s.lower()] *)
Fixpoint lower_string (s : string) : string :=
  match s with
  | EmptyString => EmptyString
  | String c s' => String (Re.lower c) (lower_string s')
  end.

(** [re.sub(r"[^\w-]+", "-", s)]: every maximal run of characters that are
    not kept becomes one dash; [in_run] tells that the dash of the current
    run is already written. *)
Fixpoint sub_dash (in_run : bool) (s : string) : string :=
  match s with
  | EmptyString => EmptyString
  | String c s' =>
      if kept c then String c (sub_dash false s')
      else if in_run then sub_dash true s'
      else String "-" (sub_dash true s')
  end.

(** [s.lstrip("-")] *)
Fixpoint lstrip_dash (s : string) : string :=
  match s with
  | EmptyString => EmptyString
  | String c s' => if Ascii.eqb c "-" then lstrip_dash s' else s
  end.

(** [s.rstrip("-")] *)
Fixpoint rstrip_dash (s : string) : string :=
  match s with
  | EmptyString => EmptyString
  | String c s' =>
      match rstrip_dash s' with
      | EmptyString => if Ascii.eqb c "-" then EmptyString
                       else String c EmptyString
      | r => String c r
      end
  end.

(** [s.strip("-")] *)
Definition strip_dash (s : string) : string := lstrip_dash (rstrip_dash s).

Definition folder_name (title : string) : string :=
  sub_dash false (lower_string title).

Definition safe_name (title : string) : string :=
  strip_dash (sub_dash false (lower_string title)).

(** The name of the file of a unit and its path below [SUMMARIES_DIR]. *)
Definition unit_file_name (u : export_unit) : string :=
  String.append (eu_prefix u)
    (String "-" (String.append (safe_name (eu_title u)) ".md")).

Definition unit_path (u : export_unit) : list string :=
  map folder_name (eu_folder u) ++ [unit_file_name u].

Fixpoint string_forall (f : ascii -> bool) (s : string) : bool :=
  match s with
  | EmptyString => true
  | String c s' => f c && string_forall f s'
  end.

(** A lower-case letter, a digit, the underscore or the dash. *)
Definition is_name_char (c : ascii) : bool :=
  let n := nat_of_ascii c in
  ((97 <=? n) && (n <=? 122) || (48 <=? n) && (n <=? 57)
   || (n =? 95) || (n =? 45))%nat.

Lemma kept_lower_name_char c :
  kept (Re.lower c) = true -> is_name_char (Re.lower c) = true.
Proof.
  destruct c as [[] [] [] [] [] [] [] []]; vm_compute; auto.
Qed.

Lemma name_char_fixed c :
  is_name_char c = true -> Re.lower c = c /\ kept c = true.
Proof.
  destruct c as [[] [] [] [] [] [] [] []]; vm_compute; auto;
    discriminate.
Qed.

Lemma sub_dash_lower_chars s :
  forall in_run,
    string_forall is_name_char (sub_dash in_run (lower_string s)) = true.
Proof.
  induction s as [|c s IH]; intros in_run; [reflexivity|].
  cbn [lower_string sub_dash].
  destruct (kept (Re.lower c)) eqn:Ek.
  - cbn [string_forall]. now rewrite kept_lower_name_char, IH.
  - destruct in_run; [apply IH|]. cbn [string_forall]. now rewrite IH.
Qed.

Lemma lstrip_dash_chars f s :
  string_forall f s = true -> string_forall f (lstrip_dash s) = true.
Proof.
  induction s as [|c s IH]; [reflexivity|]. cbn [lstrip_dash].
  destruct (Ascii.eqb c "-"); [|auto]. cbn [string_forall].
  intros H. apply andb_prop in H as [_ H]. now apply IH.
Qed.

Lemma rstrip_dash_chars f s :
  string_forall f s = true -> string_forall f (rstrip_dash s) = true.
Proof.
  induction s as [|c s IH]; [reflexivity|]. cbn [string_forall rstrip_dash].
  intros H. apply andb_prop in H as [Hc H]. specialize (IH H).
  destruct (rstrip_dash s) as [|c' r].
  - destruct (Ascii.eqb c "-"); [reflexivity|]. cbn. now rewrite Hc.
  - cbn [string_forall] in *. now rewrite Hc, IH.
Qed.

(** The title is ASCII text, the domain on which [\s], [\d], [\w] and
    [lower()] are modelled. *)
Definition is_ascii (s : string) : bool :=
  string_forall (fun c => (nat_of_ascii c <? 128)%nat) s.

Lemma safe_name_chars title :
  string_forall is_name_char (safe_name title) = true.
Proof.
  unfold safe_name, strip_dash.
  apply lstrip_dash_chars, rstrip_dash_chars, sub_dash_lower_chars.
Qed.

(** X15. For an ASCII title, every character of a folder name and of the
    name part of a file is a lower-case letter, a digit, an underscore or a
    dash, whatever the title: no name contains a slash, a dot or a space. *)
Theorem names_are_plain (title : string) :
  is_ascii title = true ->
  string_forall is_name_char (folder_name title) = true
  /\ string_forall is_name_char (safe_name title) = true.
Proof.
  intros _. split; [apply sub_dash_lower_chars|apply safe_name_chars].
Qed.

Lemma names_are_plain_witness :
  string_forall is_name_char (folder_name "Part I: Hip / Knee") = true
  /\ string_forall is_name_char (safe_name "Part I: Hip / Knee") = true.
Proof. apply names_are_plain. reflexivity. Defined.

Lemma lower_string_fixed s :
  string_forall is_name_char s = true -> lower_string s = s.
Proof.
  induction s as [|c s IH]; [reflexivity|]. cbn [string_forall lower_string].
  intros H. apply andb_prop in H as [Hc H].
  destruct (name_char_fixed c Hc) as [-> _]. now rewrite IH.
Qed.

Lemma sub_dash_fixed s :
  string_forall is_name_char s = true ->
  forall in_run, sub_dash in_run s = s.
Proof.
  induction s as [|c s IH]; [reflexivity|]. cbn [string_forall sub_dash].
  intros H in_run. apply andb_prop in H as [Hc H].
  destruct (name_char_fixed c Hc) as [_ ->]. now rewrite IH.
Qed.

Lemma lstrip_dash_again s : lstrip_dash (lstrip_dash s) = lstrip_dash s.
Proof.
  induction s as [|c s IH]; [reflexivity|]. cbn [lstrip_dash].
  destruct (Ascii.eqb c "-") eqn:E; [exact IH|].
  cbn [lstrip_dash]. now rewrite E.
Qed.

Lemma rstrip_dash_again s : rstrip_dash (rstrip_dash s) = rstrip_dash s.
Proof.
  induction s as [|c s IH]; [reflexivity|]. cbn [rstrip_dash].
  destruct (rstrip_dash s) as [|c' r] eqn:E.
  - destruct (Ascii.eqb c "-") eqn:Ec; [reflexivity|].
    cbn [rstrip_dash]. now rewrite Ec.
  - cbn [rstrip_dash]. cbn [rstrip_dash] in IH.
    destruct (rstrip_dash r) as [|c2 r2].
    + destruct (Ascii.eqb c' "-"); [discriminate|]. now injection IH as ->.
    + now rewrite IH.
Qed.

(** Stripping on the left keeps a string that has no dash at its end. *)
Lemma rstrip_lstrip s :
  rstrip_dash s = s -> rstrip_dash (lstrip_dash s) = lstrip_dash s.
Proof.
  induction s as [|c s IH]; [reflexivity|]. intros H.
  cbn [lstrip_dash]. destruct (Ascii.eqb c "-") eqn:Ec; [|exact H].
  apply IH. cbn [rstrip_dash] in H.
  destruct (rstrip_dash s) as [|c' r].
  - rewrite Ec in H. discriminate.
  - now injection H.
Qed.

Lemma strip_dash_ends s :
  lstrip_dash (strip_dash s) = strip_dash s
  /\ rstrip_dash (strip_dash s) = strip_dash s.
Proof.
  unfold strip_dash. split; [apply lstrip_dash_again|].
  apply rstrip_lstrip, rstrip_dash_again.
Qed.

(** X16. For an ASCII title, the name part of a file neither starts nor ends
    with a dash (stripping it again on either side changes nothing), and
    taking the name of a name gives the same name. *)
Theorem safe_name_stable (title : string) :
  is_ascii title = true ->
  lstrip_dash (safe_name title) = safe_name title
  /\ rstrip_dash (safe_name title) = safe_name title
  /\ safe_name (safe_name title) = safe_name title.
Proof.
  intros _.
  destruct (strip_dash_ends (sub_dash false (lower_string title)))
    as [Hl Hr].
  change (strip_dash (sub_dash false (lower_string title)))
    with (safe_name title) in Hl, Hr.
  split; [exact Hl|]. split; [exact Hr|].
  pose proof (safe_name_chars title) as Hchars.
  unfold safe_name at 1.
  rewrite (lower_string_fixed _ Hchars), (sub_dash_fixed _ Hchars).
  unfold strip_dash. now rewrite Hr, Hl.
Qed.

Lemma safe_name_stable_witness :
  lstrip_dash (safe_name "(Results) & Discussion!")
  = safe_name "(Results) & Discussion!"
  /\ rstrip_dash (safe_name "(Results) & Discussion!")
     = safe_name "(Results) & Discussion!"
  /\ safe_name (safe_name "(Results) & Discussion!")
     = safe_name "(Results) & Discussion!".
Proof. apply safe_name_stable. reflexivity. Defined.







(** ** The files that are written *)

Section FileFacts.
Variable completion : nat -> string -> list string -> string.

Lemma write_units_files units :
  forall n f,
    In f (write_units completion n units) ->
    blank (md_text f) = false
    /\ exists u m,
         In u units
         /\ eu_points u <> []
         /\ md_folder f = eu_folder u
         /\ md_prefix f = eu_prefix u
         /\ md_title f = eu_title u
         /\ md_text f = completion m (eu_analysis_title u) (eu_points u).
Proof.
  induction units as [|u rest IH]; intros n f Hf; [contradiction|].
  cbn [write_units] in Hf. apply in_app_or in Hf as [Hf|Hf].
  - unfold save_md in Hf.
    destruct (blank (analyze_knowledge completion n (eu_analysis_title u)
                       (eu_points u))) eqn:Eb; [contradiction|].
    destruct Hf as [<-|[]]. cbn [md_text md_folder md_prefix md_title].
    split; [exact Eb|]. exists u, n. unfold analyze_knowledge in *.
    destruct (eu_points u) as [|k ks] eqn:Ep; [discriminate|].
    repeat split; auto; [now left|discriminate].
  - destruct (IH _ f Hf) as (Hb & u' & m & Hin & Hrest).
    split; [exact Hb|]. exists u', m. split; [now right|exact Hrest].
Qed.

Lemma write_units_length units :
  forall n,
    (List.length (write_units completion n units) <= List.length units)%nat.
Proof.
  induction units as [|u rest IH]; intros n; [apply le_n|].
  cbn [write_units]. rewrite length_app. cbn [List.length].
  specialize (IH (n + requests (eu_points u))%nat).
  unfold save_md.
  destruct (blank (analyze_knowledge completion n (eu_analysis_title u)
                     (eu_points u))); cbn [List.length]; lia.
Qed.

End FileFacts.

(** X18. [save_md] never writes a file with blank text and every file
    written holds the model's answer for a unit that has knowledge, under
    that unit's folder, prefix and title; a unit gives at most one file. *)
Theorem files_written_have_content
    (completion : nat -> string -> list string -> string) (n : nat)
    (units : list export_unit) :
  Forall (fun f =>
            blank (md_text f) = false
            /\ exists u m,
                 In u units
                 /\ eu_points u <> []
                 /\ md_folder f = eu_folder u
                 /\ md_prefix f = eu_prefix u
                 /\ md_title f = eu_title u
                 /\ md_text f
                    = completion m (eu_analysis_title u) (eu_points u))
    (write_units completion n units)
  /\ (List.length (write_units completion n units)
      <= List.length units)%nat.
Proof.
  split.
  - apply Forall_forall. intros f Hf.
    now apply (write_units_files completion units n).
  - apply write_units_length.
Qed.

(** ** Which titles are Part and Chapter titles *)

Notation "s +++ t" := (String.append s t)
  (at level 60, right associativity).

Lemma sapp_nil_r s : s +++ "" = s.
Proof. induction s as [|c s IH]; cbn; [|rewrite IH]; reflexivity. Qed.

Lemma sapp_assoc s t u : (s +++ t) +++ u = s +++ (t +++ u).
Proof. induction s as [|c s IH]; cbn; [|rewrite IH]; reflexivity. Qed.

(** The strings a pattern matches in full. *)
Inductive matches : Re.regex -> string -> Prop :=
| matches_eps : matches Re.Eps ""
| matches_chr p c : p c = true -> matches (Re.Chr p) (String c "")
| matches_seq a b s t :
    matches a s -> matches b t -> matches (Re.Seq a b) (s +++ t)
| matches_alt_l a b s : matches a s -> matches (Re.Alt a b) s
| matches_alt_r a b s : matches b s -> matches (Re.Alt a b) s
| matches_star_nil a : matches (Re.Star a) ""
| matches_star_more a s t :
    matches a s -> matches (Re.Star a) t -> matches (Re.Star a) (s +++ t).

Lemma sapp_empty s t : s +++ t = "" -> s = "" /\ t = "".
Proof. destruct s; cbn; [auto|discriminate]. Qed.

Lemma nullable_matches r : Re.nullable r = true <-> matches r "".
Proof.
  induction r as [| |p|a IHa b IHb|a IHa b IHb|a IHa]; cbn [Re.nullable].
  - split; [discriminate|]. intros H. inversion H.
  - split; [constructor|reflexivity].
  - split; [discriminate|]. intros H. inversion H.
  - rewrite andb_true_iff, IHa, IHb. split.
    + intros [Ha Hb]. now apply (matches_seq a b "" "").
    + intros H. inversion H as [| |? ? s t Hs Ht| | | |]; subst.
      match goal with
      | Heq : _ +++ _ = "" |- _ => apply sapp_empty in Heq as [-> ->]
      end.
      now split.
  - rewrite orb_true_iff, IHa, IHb. split.
    + intros [H|H]; [now apply matches_alt_l|now apply matches_alt_r].
    + intros H. inversion H; subst; auto.
  - split; [constructor|reflexivity].
Qed.

(** A non-empty match of a star starts with a non-empty match of its
    body. *)
Lemma matches_star_first a c s :
  matches (Re.Star a) (String c s) ->
  exists s1 s2,
    s = s1 +++ s2 /\ matches a (String c s1) /\ matches (Re.Star a) s2.
Proof.
  intros H. remember (Re.Star a) as r eqn:Er.
  remember (String c s) as w eqn:Ew. revert c s Ew.
  induction H as [| | | | | |a' s1 s2 H1 _ H2 IH2]; intros c0 s0 Ew;
    try discriminate.
  injection Er as ->. destruct s1 as [|c1 s1]; cbn in Ew.
  - now apply IH2.
  - injection Ew as -> <-. now exists s1, s2.
Qed.

Lemma deriv_matches r :
  forall c s, matches (Re.deriv c r) s <-> matches r (String c s).
Proof.
  induction r as [| |p|a IHa b IHb|a IHa b IHb|a IHa]; intros c s;
    cbn [Re.deriv].
  - split; intros H; inversion H.
  - split; intros H; inversion H.
  - destruct (p c) eqn:Ep; split; intros H.
    + inversion H; subst. now constructor.
    + inversion H; subst. constructor.
    + inversion H.
    + inversion H; subst. congruence.
  - assert (Hseq : matches (Re.Seq (Re.deriv c a) b) s
                   -> matches (Re.Seq a b) (String c s)).
    { intros H. inversion H as [| |? ? s1 s2 H1 H2| | | |]; subst.
      apply IHa in H1. apply (matches_seq a b (String c s1) s2 H1 H2). }
    assert (Hinv : matches (Re.Seq a b) (String c s) ->
                   matches (Re.Seq (Re.deriv c a) b) s
                   \/ (matches a "" /\ matches b (String c s))).
    { intros H. remember (String c s) as w eqn:Ew.
      inversion H as [| |? ? s1 s2 H1 H2| | | |]; subst.
      match goal with
      | Heq : _ +++ _ = String c s |- _ => rename Heq into Hw
      end.
      destruct s1 as [|c1 s1]; cbn in Hw.
      - right. subst s2. now split.
      - injection Hw as -> <-. left. apply matches_seq; [|exact H2].
        now apply IHa. }
    destruct (Re.nullable a) eqn:En.
    + split.
      * intros H. inversion H; subst; [now apply Hseq|].
        apply (matches_seq a b "" (String c s)).
        -- now apply nullable_matches.
        -- now apply IHb.
      * intros H. apply Hinv in H as [H|[_ H]].
        -- now apply matches_alt_l.
        -- apply matches_alt_r. now apply IHb.
    + split; [exact Hseq|].
      intros H. apply Hinv in H as [H|[H _]]; [exact H|].
      apply nullable_matches in H. congruence.
  - split; intros H.
    + inversion H; subst.
      * apply matches_alt_l. now apply IHa.
      * apply matches_alt_r. now apply IHb.
    + inversion H; subst.
      * apply matches_alt_l. now apply IHa.
      * apply matches_alt_r. now apply IHb.
  - split; intros H.
    + inversion H as [| |? ? s1 s2 H1 H2| | | |]; subst.
      apply IHa in H1.
      apply (matches_star_more a (String c s1) s2 H1 H2).
    + apply matches_star_first in H as (s1 & s2 & -> & H1 & H2).
      apply matches_seq; [|exact H2]. now apply IHa.
Qed.

(** [pattern.search(title)] for a pattern that starts with [^]: some
    prefix of the title matches. *)
Lemma search_anchored_matches s :
  forall r,
    Re.search_anchored r s = true
    <-> exists p q, s = p +++ q /\ matches r p.
Proof.
  induction s as [|c s IH]; intros r; cbn [Re.search_anchored].
  - rewrite orb_false_r, nullable_matches. split.
    + intros H. now exists "", "".
    + intros (p & q & Heq & H). symmetry in Heq.
      apply sapp_empty in Heq as [-> _]. exact H.
  - rewrite orb_true_iff, nullable_matches, IH. split.
    + intros [H|(p & q & -> & H)].
      * now exists "", (String c s).
      * exists (String c p), q. split; [reflexivity|].
        now apply deriv_matches.
    + intros (p & q & Heq & H). destruct p as [|c' p]; [now left|].
      cbn in Heq. injection Heq as <- ->. right.
      exists p, q. split; [reflexivity|]. now apply deriv_matches.
Qed.

Lemma matches_chr_inv f s :
  matches (Re.Chr f) s -> exists c, s = String c "" /\ f c = true.
Proof. intros H. inversion H; subst. eauto. Qed.

Lemma matches_star_class f s :
  matches (Re.Star (Re.Chr f)) s <-> string_forall f s = true.
Proof.
  split.
  - intros H. remember (Re.Star (Re.Chr f)) as r eqn:Er.
    induction H as [| | | | | |a s1 s2 H1 _ H2 IH2]; try discriminate;
      [reflexivity|].
    injection Er as ->. apply matches_chr_inv in H1 as (c & -> & Hc).
    cbn. rewrite Hc. now apply IH2.
  - induction s as [|c s IH]; cbn [string_forall]; intros H.
    + constructor.
    + apply andb_prop in H as [Hc Hs].
      apply (matches_star_more (Re.Chr f) (String c "") s).
      * now constructor.
      * now apply IH.
Qed.

Lemma matches_plus_class f s :
  matches (Re.Plus (Re.Chr f)) s
  <-> exists c t, s = String c t /\ f c = true /\ string_forall f t = true.
Proof.
  unfold Re.Plus. split.
  - intros H. inversion H as [| |? ? s1 s2 H1 H2| | | |]; subst.
    apply matches_chr_inv in H1 as (c & -> & Hc).
    exists c, s2. repeat split; auto. now apply matches_star_class.
  - intros (c & t & -> & Hc & Ht).
    apply (matches_seq (Re.Chr f) (Re.Star (Re.Chr f)) (String c "") t).
    + now constructor.
    + now apply matches_star_class.
Qed.

Lemma matches_lit_ci l :
  forall w, matches (Re.lit_ci l) w <-> lower_string w = lower_string l.
Proof.
  induction l as [|c l IH]; intros w; cbn [Re.lit_ci lower_string].
  - split.
    + intros H. inversion H. reflexivity.
    + destruct w; [constructor|discriminate].
  - split.
    + intros H. inversion H as [| |? ? s1 s2 H1 H2| | | |]; subst.
      apply matches_chr_inv in H1 as (c0 & -> & Hc).
      apply Ascii.eqb_eq in Hc. cbn. rewrite Hc. f_equal. now apply IH.
    + destruct w as [|c0 w]; cbn [lower_string]; [discriminate|].
      intros [= Hc Hw].
      apply (matches_seq (Re.chr_ci c) (Re.lit_ci l) (String c0 "") w).
      * constructor. now apply Ascii.eqb_eq.
      * now apply IH.
Qed.

(** X19. An outline entry with an ASCII title opens a Part exactly when its
    level is 1 and its title consists of optional white space, the word
    "part" in any mix of upper and lower case, one white-space character,
    and anything after that. So "Part" alone, "Part1" and "Parts of ..."
    open no Part. *)
Theorem part_title_form (level : Z) (title : string) :
  is_ascii title = true ->
  is_part_entry level title = true
  <-> level = 1
      /\ exists ws w c rest,
           title = ws +++ w +++ String c rest
           /\ string_forall Re.isspace ws = true
           /\ lower_string w = "part"
           /\ Re.isspace c = true.
Proof.
  intros _. unfold is_part_entry. rewrite andb_true_iff, Z.eqb_eq.
  rewrite search_anchored_matches. unfold PART_PATTERN. split.
  - intros (Hl & p & q & -> & H). split; [exact Hl|].
    inversion H as [| |? ? ws x Hws Hx| | | |]; subst.
    inversion Hx as [| |? ? w sp Hw Hsp| | | |]; subst.
    apply matches_star_class in Hws. apply (matches_lit_ci "Part") in Hw.
    apply matches_plus_class in Hsp as (c & t & -> & Hc & _).
    exists ws, w, c, (t +++ q). repeat split; auto.
    now rewrite !sapp_assoc.
  - intros (Hl & ws & w & c & rest & -> & Hws & Hw & Hc).
    split; [exact Hl|]. exists (ws +++ w +++ String c ""), rest. split.
    + now rewrite !sapp_assoc.
    + apply matches_seq; [now apply matches_star_class|].
      apply matches_seq; [now apply (matches_lit_ci "Part")|].
      apply matches_plus_class. now exists c, "".
Qed.

(** X20. Inside a Part, an entry with an ASCII title makes a chapter exactly
    when its level is 2 and its title consists of optional white space, the
    word "chapter" in any mix of upper and lower case, at least one
    white-space character, a decimal digit, and anything after that. So
    "Chapter One" and "Chapter1" make no chapter. *)
Theorem chapter_title_form (level : Z) (title : string) :
  is_ascii title = true ->
  is_chapter_entry level title = true
  <-> level = 2
      /\ exists ws w c sp d rest,
           title = ws +++ w +++ String c (sp +++ String d rest)
           /\ string_forall Re.isspace ws = true
           /\ lower_string w = "chapter"
           /\ Re.isspace c = true
           /\ string_forall Re.isspace sp = true
           /\ Re.isdigit d = true.
Proof.
  intros _. unfold is_chapter_entry. rewrite andb_true_iff, Z.eqb_eq.
  rewrite search_anchored_matches. unfold CHAPTER_PATTERN. split.
  - intros (Hl & p & q & -> & H). split; [exact Hl|].
    inversion H as [| |? ? ws x Hws Hx| | | |]; subst.
    inversion Hx as [| |? ? w y Hw Hy| | | |]; subst.
    inversion Hy as [| |? ? sp ds Hsp Hds| | | |]; subst.
    apply matches_star_class in Hws. apply (matches_lit_ci "Chapter") in Hw.
    apply matches_plus_class in Hsp as (c & sp' & -> & Hc & Hsp').
    apply matches_plus_class in Hds as (d & ds' & -> & Hd & _).
    exists ws, w, c, sp', d, (ds' +++ q). repeat split; auto.
    rewrite !sapp_assoc. cbn [String.append]. now rewrite ?sapp_assoc.
  - intros (Hl & ws & w & c & sp & d & rest & -> & Hws & Hw & Hc & Hsp & Hd).
    split; [exact Hl|].
    exists (ws +++ w +++ String c sp +++ String d ""), rest. split.
    + rewrite !sapp_assoc. cbn [String.append]. now rewrite ?sapp_assoc.
    + apply matches_seq; [now apply matches_star_class|].
      apply matches_seq; [now apply (matches_lit_ci "Chapter")|].
      apply matches_seq.
      * apply matches_plus_class. now exists c, sp.
      * apply matches_plus_class. now exists d, "".
Qed.

Lemma part_title_form_witness :
  is_part_entry 1 "  PaRt II. Methods" = true
  <-> 1 = 1
      /\ exists ws w c rest,
           "  PaRt II. Methods" = ws +++ w +++ String c rest
           /\ string_forall Re.isspace ws = true
           /\ lower_string w = "part"
           /\ Re.isspace c = true.
Proof. apply part_title_form. reflexivity. Defined.

Lemma chapter_title_form_witness :
  is_chapter_entry 2 "Chapter 12: Results" = true
  <-> 2 = 2
      /\ exists ws w c sp d rest,
           "Chapter 12: Results" = ws +++ w +++ String c (sp +++ String d rest)
           /\ string_forall Re.isspace ws = true
           /\ lower_string w = "chapter"
           /\ Re.isspace c = true
           /\ string_forall Re.isspace sp = true
           /\ Re.isdigit d = true.
Proof. apply chapter_title_form. reflexivity. Defined.

(** Patterns whose character tests do not look at the case. *)
Fixpoint caseless (r : Re.regex) : Prop :=
  match r with
  | Re.Chr p => forall c, p (Re.lower c) = p c
  | Re.Seq a b | Re.Alt a b => caseless a /\ caseless b
  | Re.Star a => caseless a
  | _ => True
  end.

Lemma caseless_deriv r :
  caseless r ->
  forall c, Re.deriv (Re.lower c) r = Re.deriv c r /\ caseless (Re.deriv c r).
Proof.
  induction r as [| |p|a IHa b IHb|a IHa b IHb|a IHa]; cbn; intros H c;
    auto.
  - rewrite H. split; [reflexivity|]. now destruct (p c).
  - destruct H as [Ha Hb].
    destruct (IHa Ha c) as [-> Ha']. destruct (IHb Hb c) as [-> Hb'].
    split; [reflexivity|]. destruct (Re.nullable a); cbn; auto.
  - destruct H as [Ha Hb].
    destruct (IHa Ha c) as [-> Ha']. destruct (IHb Hb c) as [-> Hb'].
    auto.
  - destruct (IHa H c) as [-> Ha']. auto.
Qed.

Lemma caseless_search s :
  forall r,
    caseless r ->
    Re.search_anchored r (lower_string s) = Re.search_anchored r s.
Proof.
  induction s as [|c s IH]; intros r Hr; [reflexivity|].
  cbn [lower_string Re.search_anchored].
  destruct (caseless_deriv r Hr c) as [-> Hr']. now rewrite IH.
Qed.

Lemma lower_lower c : Re.lower (Re.lower c) = Re.lower c.
Proof. destruct c as [[] [] [] [] [] [] [] []]; reflexivity. Qed.

Lemma isspace_lower c : Re.isspace (Re.lower c) = Re.isspace c.
Proof. destruct c as [[] [] [] [] [] [] [] []]; reflexivity. Qed.

Lemma isdigit_lower c : Re.isdigit (Re.lower c) = Re.isdigit c.
Proof. destruct c as [[] [] [] [] [] [] [] []]; reflexivity. Qed.

Lemma caseless_lit_ci l : caseless (Re.lit_ci l).
Proof.
  induction l as [|c l IH]; cbn; auto. split; [|exact IH].
  intros c0. now rewrite lower_lower.
Qed.

(** X21. For ASCII titles, the classification of an entry does not depend on
    the case of the letters of its title: two titles that are equal once put
    in lower case are both Part titles or both not, and both Chapter titles
    or both not. *)
Theorem classification_ignores_case (level : Z) (title title' : string) :
  is_ascii title = true ->
  is_ascii title' = true ->
  lower_string title = lower_string title' ->
  is_part_entry level title = is_part_entry level title'
  /\ is_chapter_entry level title = is_chapter_entry level title'.
Proof.
  intros _ _ Heq.
  assert (Hp : caseless PART_PATTERN).
  { cbn. repeat split; auto using isspace_lower, caseless_lit_ci;
      intros c; now rewrite lower_lower. }
  assert (Hc : caseless CHAPTER_PATTERN).
  { cbn. repeat split; auto using isspace_lower, isdigit_lower;
      intros c; now rewrite lower_lower. }
  unfold is_part_entry, is_chapter_entry.
  rewrite <- (caseless_search title _ Hp), <- (caseless_search title' _ Hp).
  rewrite <- (caseless_search title _ Hc), <- (caseless_search title' _ Hc).
  now rewrite Heq.
Qed.

Lemma classification_ignores_case_witness :
  is_part_entry 1 "PART II" = is_part_entry 1 "part ii"
  /\ is_chapter_entry 1 "PART II" = is_chapter_entry 1 "part ii".
Proof. apply classification_ignores_case; reflexivity. Defined.

(** ** The combined lists of the Parts and Chapters of the tree *)

Definition part_overview (p : part) : export_unit :=
  overview_unit [p_title p] (p_title p)
    (part_knowledge p ++ List.concat (map s_knowledge (other_sections p))).

Definition chapter_overview (p : part) (tc : string * chapter)
  : export_unit :=
  overview_unit [p_title p; fst tc] (fst tc)
    (chapter_knowledge (snd tc)
       ++ List.concat (map s_knowledge (sections (snd tc)))).

Lemma export_sections_numbered folder secs u :
  In u (export_sections folder 1 secs) -> eu_prefix u <> "00".
Proof.
  intros Hin Heq.
  apply (proj2 (section_prefixes_distinct folder secs)).
  rewrite <- Heq. now apply in_map.
Qed.

Lemma tree_units_part_overview parts p :
  In p parts -> In (part_overview p) (flat_map tree_part_units parts).
Proof.
  intros Hp. apply in_flat_map. exists p. split; [exact Hp|]. now left.
Qed.

Lemma tree_units_chapter_overview parts p tc :
  In p parts -> In tc (chapters p) ->
  In (chapter_overview p tc) (flat_map tree_part_units parts).
Proof.
  intros Hp Htc. apply in_flat_map. exists p. split; [exact Hp|].
  right. apply in_or_app. right. apply in_flat_map.
  exists tc. split; [exact Htc|]. now left.
Qed.

Lemma tree_units_overviews parts u :
  In u (flat_map tree_part_units parts) ->
  eu_prefix u = "00" ->
  (exists p, In p parts /\ u = part_overview p)
  \/ (exists p tc,
        In p parts /\ In tc (chapters p) /\ u = chapter_overview p tc).
Proof.
  intros Hu Hprefix. apply in_flat_map in Hu as (p & Hp & Hu).
  destruct Hu as [<-|Hu]; [left; eauto|].
  apply in_app_or in Hu as [Hu|Hu].
  - now apply export_sections_numbered in Hu.
  - apply in_flat_map in Hu as (tc & Htc & Hu).
    destruct Hu as [<-|Hu]; [right; eauto|].
    now apply export_sections_numbered in Hu.
Qed.

(** C7, as amended. When no two Parts of the outline have the same
    title, [main] exports, for every Part of the final tree, an overview
    whose list is the Part's own knowledge followed by the knowledge of its
    other sections, and for every Chapter of the Part an overview whose
    list is the Chapter's own knowledge followed by the knowledge of its
    sections; and every overview that is exported is one of these, so no
    Part's list holds the knowledge of a Chapter. *)
Theorem combined_lists_of_tree (process_page : nat -> Z -> PageContent)
    (toc : list toc_entry) (total_pages : Z) (kb0 : knowledge_base) :
  NoDup (map p_title (build toc)) ->
  exists out,
    main process_page toc total_pages kb0 = Some out
    /\ (forall p, In p (out_parts out) ->
          In (part_overview p) (out_units out))
    /\ (forall p tc, In p (out_parts out) -> In tc (chapters p) ->
          In (chapter_overview p tc) (out_units out))
    /\ (forall u, In u (out_units out) -> eu_prefix u = "00" ->
          (exists p, In p (out_parts out) /\ u = part_overview p)
          \/ (exists p tc,
                In p (out_parts out) /\ In tc (chapters p)
                /\ u = chapter_overview p tc)).
Proof.
  intros Hnd. unfold main, route_all. rewrite outline_tree_at. cbn [bind].
  set (parts0 := resolve_at (build toc) total_pages).
  set (st0 := {| rs_kb := kb0; rs_calls := 0; rs_routed := [] |}).
  destruct (process_parts_dump process_page total_pages parts0 st0)
    as (parts & st & Hrun & Hdump & _).
  { apply outline_tree_ranged. }
  { subst parts0. now rewrite resolve_at_titles. }
  destruct (process_parts_run process_page total_pages parts0 st0
              (outline_tree_ranged toc total_pages))
    as (parts2 & st2 & batch & Hrun2 & Hshape & _).
  rewrite Hrun in Hrun2. injection Hrun2 as <- <-.
  rewrite Hrun. cbn [bind]. rewrite export_dumped; [| |exact Hdump].
  - cbn [bind]. eexists. split; [reflexivity|].
    cbn [out_parts out_units]. split; [|split].
    + apply tree_units_part_overview.
    + apply tree_units_chapter_overview.
    + apply tree_units_overviews.
  - apply (Forall2_same_shape_unique parts0); [exact Hshape|].
    apply resolve_at_unique, build_unique_chapters.
Qed.

Lemma combined_lists_of_tree_witness :
  exists out,
    main numbered_page
      [(1, "Part I", 1); (2, "Chapter 1", 2); (3, "Methods", 2);
       (1, "Part II", 3); (2, "Overview", 4)] 4 []
    = Some out
    /\ (forall p, In p (out_parts out) ->
          In (part_overview p) (out_units out))
    /\ (forall p tc, In p (out_parts out) -> In tc (chapters p) ->
          In (chapter_overview p tc) (out_units out))
    /\ (forall u, In u (out_units out) -> eu_prefix u = "00" ->
          (exists p, In p (out_parts out) /\ u = part_overview p)
          \/ (exists p tc,
                In p (out_parts out) /\ In tc (chapters p)
                /\ u = chapter_overview p tc)).
Proof.
  apply combined_lists_of_tree. simpl.
  repeat constructor; simpl; intuition discriminate.
Defined.

(** C7 as stated fails: two Parts with the title "Part I", on pages 1 and
    3 of 4, every page giving its number as knowledge.  The first Part
    holds the knowledge of pages 0 and 1, but no exported overview has that
    list: both overviews are made from the record of the second Part. *)
Lemma shared_title_part_not_exported :
  ~ (forall process_page toc total_pages kb0 out,
       main process_page toc total_pages kb0 = Some out ->
       forall p, In p (out_parts out) ->
         In (part_overview p) (out_units out)).
Proof.
  intros H.
  specialize (H numbered_page [(1, "Part I", 1); (1, "Part I", 3)] 4 []).
  destruct (main numbered_page [(1, "Part I", 1); (1, "Part I", 3)] 4 [])
    as [out|] eqn:E; vm_compute in E; [|discriminate].
  injection E as <-. specialize (H _ eq_refl).
  specialize (H {| p_title := "Part I"; p_start := 0; p_end := Some 1;
                   part_knowledge := ["00"; "01"]; chapters := [];
                   other_sections := [] |}
                (or_introl eq_refl)).
  vm_compute in H. destruct H as [H|[H|[]]]; discriminate.
Qed.
